(** * ECE322Scripts: MC/DC solver and fault-coverage set cover

    A shallow embedding of [scripts/mc_dc_solver.py] (class [MCDCSolver]) and
    of the set-cover part of [scripts/vector_toolkit_cli.py]
    ([exact_min_set_cover], [greedy_set_cover]), with the properties the
    specification states about them.

    Conventions.
    - Python [str] values are [string]s (ASCII text); a single-character
      string, such as a variable name, is an [ascii].
    - A Python [dict] is an association list in insertion order
      ([Py.dict_set] updates in place or appends, as [d[k] = v] does).
    - The solver object is a record; a method is a function from the object's
      state to the new state and the returned value.
    - A [numpy] integer matrix is a list of rows of [Z]. *)

From Stdlib Require Import Ascii String.
From Stdlib Require Import List ListSet Arith Lia Bool ZArith Sorted.
Import ListNotations.

Set Implicit Arguments.

(* ===================================================================== *)
(** ** Python built-ins used by the scripts *)
(* ===================================================================== *)

Module Py.

(** Values an evaluated decision can have, and the exceptions that
    [eval] can raise (all of them subclasses of [Exception]). *)
Inductive value : Type :=
| PyNone
| PyBool (b : bool)
| PyInt (z : Z).

Inductive exn : Type :=
| SyntaxError
| NameError
| TypeError
| OtherException.

Inductive outcome : Type :=
| Returns (v : value)
| Raises (e : exn).

(** [==] on values: [bool] is a subclass of [int], [None] equals only
    itself. *)
Definition int_of_bool (b : bool) : Z := if b then 1%Z else 0%Z.

Definition py_eq (x y : value) : bool :=
  match x, y with
  | PyNone, PyNone => true
  | PyNone, _ | _, PyNone => false
  | PyBool a, PyBool b => Bool.eqb a b
  | PyBool a, PyInt z | PyInt z, PyBool a => Z.eqb (int_of_bool a) z
  | PyInt a, PyInt b => Z.eqb a b
  end.

Definition py_ne (x y : value) : bool := negb (py_eq x y).

(** Truth value of an object. *)
Definition truthy (x : value) : bool :=
  match x with
  | PyNone => false
  | PyBool b => b
  | PyInt z => negb (Z.eqb z 0)
  end.

(** [s.replace(old, new)] for a non-empty [old]: occurrences are replaced
    from left to right and do not overlap.  [skip] counts the characters of
    the occurrence just replaced that are still to be dropped. *)
Fixpoint replace_from (old new : string) (skip : nat) (s : string) : string :=
  match s with
  | EmptyString => EmptyString
  | String c rest =>
      match skip with
      | S k => replace_from old new k rest
      | O =>
          if String.prefix old s
          then String.append new (replace_from old new (String.length old - 1) rest)
          else String c (replace_from old new 0 rest)
      end
  end.

Definition str_replace (old new s : string) : string := replace_from old new 0 s.

(** Character classes of the [re] module on ASCII text. *)
Definition code_between (lo hi : nat) (c : ascii) : bool :=
  (lo <=? nat_of_ascii c) && (nat_of_ascii c <=? hi).

Definition is_lower (c : ascii) : bool := code_between 97 122 c.
Definition is_upper (c : ascii) : bool := code_between 65 90 c.
Definition is_digit (c : ascii) : bool := code_between 48 57 c.

(** [\w] *)
Definition is_word (c : ascii) : bool :=
  is_lower c || is_upper c || is_digit c || (nat_of_ascii c =? 95).

(** [re.findall(r'\b[a-z]\b', s)]: every lowercase letter that has no word
    character directly before it and none directly after it.  [prev_word]
    tells whether the character before the current position is a word
    character. *)
Fixpoint findall_single_lower (prev_word : bool) (s : string) : list ascii :=
  match s with
  | EmptyString => []
  | String c rest =>
      let next_word :=
        match rest with
        | EmptyString => false
        | String d _ => is_word d
        end in
      let tail := findall_single_lower (is_word c) rest in
      if is_lower c && negb prev_word && negb next_word then c :: tail else tail
  end.

(** [set(l)] of one-character strings, then [list(...)]: the distinct
    elements of [l] (their order in the list is unspecified in Python and
    is erased by the sort that follows). *)
Definition set_of_list (l : list ascii) : list ascii := nodup ascii_dec l.

(** [sorted(l)] on one-character strings: ascending code points. *)
Fixpoint insert_sorted (c : ascii) (l : list ascii) : list ascii :=
  match l with
  | [] => [c]
  | d :: l' =>
      if nat_of_ascii c <=? nat_of_ascii d then c :: l
      else d :: insert_sorted c l'
  end.

Definition sorted (l : list ascii) : list ascii := fold_right insert_sorted [] l.

(** [itertools.product(pool, repeat=n)]: nested loops, the rightmost
    position advancing fastest. *)
Fixpoint product (A : Type) (pool : list A) (n : nat) : list (list A) :=
  match n with
  | O => [[]]
  | S k => flat_map (fun x => map (cons x) (product pool k)) pool
  end.

(** [enumerate(l, start)] *)
Definition enumerate (A : Type) (start : nat) (l : list A) : list (nat * A) :=
  combine (seq start (length l)) l.

(** Dictionaries in insertion order. *)
Section Dict.
Variables (K V : Type).
Variable K_eq_dec : forall x y : K, {x = y} + {x <> y}.

Definition dict : Type := list (K * V).

(** [d[k]]; [None] stands for [KeyError]. *)
Fixpoint dict_get (d : dict) (k : K) : option V :=
  match d with
  | [] => None
  | (k', v) :: d' => if K_eq_dec k k' then Some v else dict_get d' k
  end.

(** [d[k] = v]: an existing key keeps its position. *)
Fixpoint dict_set (d : dict) (k : K) (v : V) : dict :=
  match d with
  | [] => [(k, v)]
  | (k', v') :: d' =>
      if K_eq_dec k k' then (k', v) :: d' else (k', v') :: dict_set d' k v
  end.

(** [dict(pairs)] *)
Definition dict_of_pairs (l : list (K * V)) : dict :=
  fold_left (fun d kv => dict_set d (fst kv) (snd kv)) l [].
End Dict.

(** [zip] *)
Definition zip (A B : Type) (l : list A) (l' : list B) : list (A * B) := combine l l'.

End Py.

(* ===================================================================== *)
(** ** scripts/mc_dc_solver.py *)
(* ===================================================================== *)

Module MCDC.

Import Py.

Local Open Scope string_scope.
Local Open Scope list_scope.
Local Open Scope nat_scope.

(** One row of the truth table: the dictionary
    [{'test_num': n, **var_values, 'result': r}].  The keys ['test_num'] and
    ['result'] are longer than one character, so they never collide with a
    variable name. *)
Record TestCase : Type := mkTestCase {
  test_num : nat;
  var_values : dict ascii bool;
  result : value
}.

(** [row[v]] for a variable [v]. *)
Definition row_get (r : TestCase) (v : ascii) : option bool :=
  dict_get ascii_dec (var_values r) v.

(** The fields of a [MCDCSolver] object. *)
Record MCDCSolver : Type := mkSolver {
  original_expression : string;
  expression : string;
  variables : list ascii;
  truth_table : list TestCase;
  mcdc_pairs : dict ascii (list (nat * nat))
}.

(** [_normalize_expression] *)
Definition _normalize_expression (expr : string) : string :=
  let expr := str_replace "&&" " and " expr in
  let expr := str_replace "||" " or " expr in
  let expr := str_replace "!" " not " expr in
  expr.

(** [_extract_variables], on the normalized expression. *)
Definition _extract_variables (expression : string) : list ascii :=
  let variables := set_of_list (findall_single_lower false expression) in
  sorted variables.

(** [__init__] *)
Definition init (expression : string) : MCDCSolver :=
  let normalized := _normalize_expression expression in
  {| original_expression := expression;
     expression := normalized;
     variables := _extract_variables normalized;
     truth_table := [];
     mcdc_pairs := [] |}.

Section Solver.

(** [eval(expression, {"__builtins__": None}, var_values)].  The
    interpreter's evaluator is outside the repository: the methods are
    defined, and the general theorems proved, for every behaviour of it. *)
Variable py_eval : string -> dict ascii bool -> outcome.

(** The body of the loop of [generate_truth_table] for one numbered
    combination.  An exception of the evaluation is caught (and a message
    printed), the row's result is then [None]. *)
Definition make_row (s : MCDCSolver) (p : nat * list bool) : TestCase :=
  let (n, combination) := p in
  let vv := dict_of_pairs ascii_dec (zip (variables s) combination) in
  let res :=
    match py_eval (expression s) vv with
    | Returns v => v
    | Raises _ => PyNone
    end in
  {| test_num := n; var_values := vv; result := res |}.

(** [generate_truth_table]: the rows are appended to [self.truth_table],
    and that same list is returned. *)
Definition generate_truth_table (s : MCDCSolver) : MCDCSolver * list TestCase :=
  let num_vars := length (variables s) in
  let rows := map (make_row s) (enumerate 1 (product [false; true] num_vars)) in
  let table := truth_table s ++ rows in
  ({| original_expression := original_expression s;
      expression := expression s;
      variables := variables s;
      truth_table := table;
      mcdc_pairs := mcdc_pairs s |},
   table).

(** The three tests of the inner loop of [find_mcdc_pairs].  A missing
    key would raise [KeyError] in Python; rows built by
    [generate_truth_table] bind every variable (lemma [row_get_total]
    below), so the comparison is between bound values. *)
Definition opt_bool_eqb (x y : option bool) : bool :=
  match x, y with
  | Some a, Some b => Bool.eqb a b
  | None, None => true
  | _, _ => false
  end.

Definition other_vars_same (vars : list ascii) (var : ascii) (test1 test2 : TestCase) : bool :=
  forallb (fun v => opt_bool_eqb (row_get test1 v) (row_get test2 v))
          (filter (fun v => negb (Ascii.eqb v var)) vars).

Definition target_var_flips (var : ascii) (test1 test2 : TestCase) : bool :=
  negb (opt_bool_eqb (row_get test1 var) (row_get test2 var)).

Definition result_changes (test1 test2 : TestCase) : bool :=
  py_ne (result test1) (result test2).

(** The two nested loops over [enumerate(self.truth_table)] for one
    variable: the list [pairs] at the end of the outer loop body. *)
Definition pairs_for (vars : list ascii) (table : list TestCase) (var : ascii) : list (nat * nat) :=
  flat_map
    (fun it1 : nat * TestCase =>
       let (i, test1) := it1 in
       flat_map
         (fun it2 : nat * TestCase =>
            let (j, test2) := it2 in
            if j <=? i then []
            else if other_vars_same vars var test1 test2
                    && target_var_flips var test1 test2
                    && result_changes test1 test2
                 then [(test_num test1, test_num test2)]
                 else [])
         (enumerate 0 table))
    (enumerate 0 table).

Definition is_empty (A : Type) (l : list A) : bool :=
  match l with [] => true | _ :: _ => false end.

(** [find_mcdc_pairs] *)
Definition find_mcdc_pairs (s : MCDCSolver) : MCDCSolver * dict ascii (list (nat * nat)) :=
  let s1 := if is_empty (truth_table s) then fst (generate_truth_table s) else s in
  let pairs_map :=
    fold_left
      (fun d var => dict_set ascii_dec d var (pairs_for (variables s1) (truth_table s1) var))
      (variables s1) (mcdc_pairs s1) in
  ({| original_expression := original_expression s1;
      expression := expression s1;
      variables := variables s1;
      truth_table := truth_table s1;
      mcdc_pairs := pairs_map |},
   pairs_map).

(** The loop of [get_minimal_test_suite] over [self.mcdc_pairs.items()];
    the Python [set] of test numbers is a duplicate-free list. *)
Definition suite_of_pairs (pairs_map : dict ascii (list (nat * nat))) : set nat :=
  fold_left
    (fun test_suite (item : ascii * list (nat * nat)) =>
       match snd item with
       | [] => test_suite
       | p :: _ => set_add Nat.eq_dec (snd p) (set_add Nat.eq_dec (fst p) test_suite)
       end)
    pairs_map (empty_set nat).

(** [get_minimal_test_suite] *)
Definition get_minimal_test_suite (s : MCDCSolver) : MCDCSolver * set nat :=
  let s1 := if is_empty (mcdc_pairs s) then fst (find_mcdc_pairs s) else s in
  (s1, suite_of_pairs (mcdc_pairs s1)).

End Solver.

(** *** A fragment of the interpreter's evaluator

    The decisions the tool is meant for, once normalized, are Python
    expressions built from names, [and], [or], [not], parentheses and the
    constants [True], [False], [None].  This is an evaluator for exactly
    that fragment, used to run the solver on concrete decisions.  Text with
    any other character, a number or another reserved word is outside the
    fragment ([tokenize] answers [None]). *)

Inductive token : Type :=
| TName (x : string)
| TAnd | TOr | TNot
| TLParen | TRParen
| TConst (v : value).

Definition other_keywords : list string :=
  ["as"; "assert"; "async"; "await"; "break"; "class"; "continue"; "def";
   "del"; "elif"; "else"; "except"; "finally"; "for"; "from"; "global";
   "if"; "import"; "in"; "is"; "lambda"; "nonlocal"; "pass"; "raise";
   "return"; "try"; "while"; "with"; "yield"].

Definition classify (w : string) : option token :=
  if existsb (String.eqb w) other_keywords then None
  else match w with
       | EmptyString => None
       | String c _ =>
           if is_digit c then None
           else if String.eqb w "and" then Some TAnd
           else if String.eqb w "or" then Some TOr
           else if String.eqb w "not" then Some TNot
           else if String.eqb w "True" then Some (TConst (PyBool true))
           else if String.eqb w "False" then Some (TConst (PyBool false))
           else if String.eqb w "None" then Some (TConst PyNone)
           else Some (TName w)
       end.

Definition flush (cur : string) (ts : list token) : option (list token) :=
  match cur with
  | EmptyString => Some ts
  | _ => option_map (fun t => t :: ts) (classify cur)
  end.

(** [cur] holds the word characters read since the last separator. *)
Fixpoint tokenize_from (cur : string) (s : string) : option (list token) :=
  match s with
  | EmptyString => flush cur []
  | String c rest =>
      if is_word c then tokenize_from (String.append cur (String c EmptyString)) rest
      else
        match tokenize_from EmptyString rest with
        | None => None
        | Some ts =>
            if (nat_of_ascii c =? 32) || (nat_of_ascii c =? 9) then flush cur ts
            else if nat_of_ascii c =? 40 then flush cur (TLParen :: ts)
            else if nat_of_ascii c =? 41 then flush cur (TRParen :: ts)
            else None
        end
  end.

Definition tokenize (s : string) : option (list token) := tokenize_from EmptyString s.

Inductive expr : Type :=
| EName (x : string)
| EConst (v : value)
| ENot (e : expr)
| EAnd (e1 e2 : expr)
| EOr (e1 e2 : expr).

Inductive level : Type := LOr | LAnd | LNot.

(** Recursive descent for
    [or_test: and_test ('or' and_test)*],
    [and_test: not_test ('and' not_test)*],
    [not_test: 'not' not_test | atom],
    [atom: NAME | True | False | None | '(' or_test ')'].
    A chain [x or y or z] is nested to the right, which evaluates as
    Python's left-to-right chain does.  [None] is a syntax error. *)
Fixpoint parse (fuel : nat) (lvl : level) (ts : list token) : option (expr * list token) :=
  match fuel with
  | O => None
  | S f =>
      match lvl with
      | LOr =>
          match parse f LAnd ts with
          | Some (e1, TOr :: ts1) =>
              match parse f LOr ts1 with
              | Some (e2, ts2) => Some (EOr e1 e2, ts2)
              | None => None
              end
          | r => r
          end
      | LAnd =>
          match parse f LNot ts with
          | Some (e1, TAnd :: ts1) =>
              match parse f LAnd ts1 with
              | Some (e2, ts2) => Some (EAnd e1 e2, ts2)
              | None => None
              end
          | r => r
          end
      | LNot =>
          match ts with
          | TNot :: ts1 =>
              match parse f LNot ts1 with
              | Some (e, ts2) => Some (ENot e, ts2)
              | None => None
              end
          | TName x :: ts1 => Some (EName x, ts1)
          | TConst v :: ts1 => Some (EConst v, ts1)
          | TLParen :: ts1 =>
              match parse f LOr ts1 with
              | Some (e, TRParen :: ts2) => Some (e, ts2)
              | _ => None
              end
          | _ => None
          end
      end
  end.

Definition parse_expression (ts : list token) : option expr :=
  match parse (3 * length ts + 3) LOr ts with
  | Some (e, []) => Some e
  | _ => None
  end.

(** Evaluation with [var_values] as the local names and no built-ins: a
    name is bound only if it is one character long and a key of
    [var_values].  (For an unbound name CPython raises [NameError], or
    [TypeError] when it stumbles on the [None] built-ins; both are
    subclasses of [Exception].) *)
Fixpoint eval_expr (env : dict ascii bool) (e : expr) : outcome :=
  match e with
  | EName (String c EmptyString) =>
      match dict_get ascii_dec env c with
      | Some b => Returns (PyBool b)
      | None => Raises NameError
      end
  | EName _ => Raises NameError
  | EConst v => Returns v
  | ENot e1 =>
      match eval_expr env e1 with
      | Returns v => Returns (PyBool (negb (truthy v)))
      | Raises x => Raises x
      end
  | EAnd e1 e2 =>
      match eval_expr env e1 with
      | Returns v => if truthy v then eval_expr env e2 else Returns v
      | Raises x => Raises x
      end
  | EOr e1 e2 =>
      match eval_expr env e1 with
      | Returns v => if truthy v then Returns v else eval_expr env e2
      | Raises x => Raises x
      end
  end.

Definition py_eval_fragment (text : string) (env : dict ascii bool) : option outcome :=
  match tokenize text with
  | None => None
  | Some ts =>
      match parse_expression ts with
      | Some e => Some (eval_expr env e)
      | None => Some (Raises SyntaxError)
      end
  end.


(** The evaluator used for the concrete runs below; they are all on text
    of the fragment. *)
Definition py_eval_model (text : string) (env : dict ascii bool) : outcome :=
  match py_eval_fragment text env with
  | Some o => o
  | None => Raises OtherException
  end.

End MCDC.

(* ===================================================================== *)
(** ** scripts/vector_toolkit_cli.py: fault coverage and set cover *)
(* ===================================================================== *)

Module SetCover.

Import Py.

Local Open Scope Z_scope.
Local Open Scope nat_scope.

(** [itertools.combinations(pool, r)]: the [r]-length subsequences of
    [pool], in lexicographic order of positions. *)
Fixpoint combinations (A : Type) (pool : list A) (r : nat) {struct pool} : list (list A) :=
  match r, pool with
  | O, _ => [[]]
  | S _, [] => []
  | S k, x :: rest => map (cons x) (combinations rest k) ++ combinations rest r
  end.

(** A two-dimensional integer array [M] with [M.shape = (t, m)]; [t] is
    the number of rows.  The number of columns is a field of its own, as
    an array with no rows still has one. *)
Record ndarray : Type := mkArray {
  rows : list (list Z);
  ncols : nat
}.

Definition nrows (M : ndarray) : nat := length (rows M).

(** [M[idx]] and [M[i, f]], for indices in range. *)
Definition row (M : ndarray) (idx : nat) : list Z := nth idx (rows M) [].
Definition entry (M : ndarray) (i f : nat) : Z := nth f (row M i) 0%Z.

(** What [read_fault_coverage] builds: at least one fault and one test
    ([get_int(..., min_value=1)]), every row a vector of [m] bits
    ([parse_binary_vector]). *)
Definition coverage_matrix (M : ndarray) : Prop :=
  1 <= ncols M /\ 1 <= nrows M /\
  Forall (fun v => length v = ncols M /\ Forall (fun b => b = 0%Z \/ b = 1%Z) v) (rows M).

(** [covered |= v] on vectors of equal length, [np.zeros(m)], [np.ones(m)]
    and [np.array_equal]. *)
Fixpoint vector_or (u v : list Z) : list Z :=
  match u, v with
  | a :: u', b :: v' => Z.lor a b :: vector_or u' v'
  | _, _ => []
  end.

Definition zeros (m : nat) : list Z := repeat 0%Z m.
Definition ones (m : nat) : list Z := repeat 1%Z m.

Fixpoint array_equal (u v : list Z) : bool :=
  match u, v with
  | [], [] => true
  | a :: u', b :: v' => Z.eqb a b && array_equal u' v'
  | _, _ => false
  end.

(** The inner loop of [exact_min_set_cover]: the OR of the rows of one
    combination. *)
Definition union (M : ndarray) (combo : list nat) : list Z :=
  fold_left (fun covered idx => vector_or covered (row M idx)) combo (zeros (ncols M)).

Definition is_full_cover (M : ndarray) (combo : list nat) : bool :=
  array_equal (union M combo) (ones (ncols M)).

(** The combinations in the order the two outer loops visit them. *)
Definition candidates (t : nat) : list (list nat) :=
  flat_map (fun r => combinations (seq 0 t) r) (seq 1 t).

(** [exact_min_set_cover]: the first combination visited that covers, or
    [None]. *)
Definition exact_min_set_cover (M : ndarray) : option (list nat) :=
  find (is_full_cover M) (candidates (nrows M)).

(** [sum(1 for f in uncovered if M[i, f] == 1)]; the set [uncovered] is a
    duplicate-free list of fault indices. *)
Definition gain (M : ndarray) (uncovered : list nat) (i : nat) : nat :=
  length (filter (fun f => Z.eqb (entry M i f) 1) uncovered).

(** The [for i in range(t)] loop of [greedy_set_cover]: the pair
    [(best, best_gain)] after it. *)
Definition select_best (M : ndarray) (uncovered : list nat) : option nat * nat :=
  fold_left
    (fun (st : option nat * nat) i =>
       let g := gain M uncovered i in
       if snd st <? g then (Some i, g) else st)
    (seq 0 (nrows M)) (None, 0).

(** [uncovered -= {f for f in uncovered if M[best, f] == 1}] *)
Definition remove_covered (M : ndarray) (uncovered : list nat) (best : nat) : list nat :=
  filter (fun f => negb (Z.eqb (entry M best f) 1)) uncovered.

Inductive loop_result : Type :=
| Finished (r : option (list nat))
| OutOfFuel.

(** The [while uncovered] loop; [fuel] bounds the number of iterations. *)
Fixpoint greedy_loop (fuel : nat) (M : ndarray) (uncovered chosen : list nat) : loop_result :=
  match uncovered with
  | [] => Finished (Some chosen)
  | _ :: _ =>
      match fuel with
      | O => OutOfFuel
      | S fuel' =>
          match select_best M uncovered with
          | (None, _) => Finished None
          | (Some best, best_gain) =>
              if best_gain =? 0 then Finished None
              else greedy_loop fuel' M (remove_covered M uncovered best) (chosen ++ [best])
          end
      end
  end.

(** [greedy_set_cover]: every iteration removes a fault from [uncovered],
    so [m] iterations are enough (lemma [greedy_loop_spec]). *)
Definition greedy_set_cover (M : ndarray) : loop_result :=
  greedy_loop (ncols M) M (seq 0 (ncols M)) [].

End SetCover.

(* ===================================================================== *)
(** ** Lists in order *)
(* ===================================================================== *)

Module ListFacts.

Lemma StronglySorted_app (A : Type) (R : A -> A -> Prop) (l1 l2 : list A) :
  StronglySorted R l1 -> StronglySorted R l2 ->
  (forall a b, In a l1 -> In b l2 -> R a b) ->
  StronglySorted R (l1 ++ l2).
Proof.
  induction 1 as [|x l1 H1 IH Hx]; intros H2 H12; simpl; [exact H2|].
  constructor.
  - apply IH; [exact H2|]. intros a b Ha Hb. apply H12; [now right|exact Hb].
  - apply Forall_app. split; [exact Hx|].
    apply Forall_forall. intros b Hb. apply H12; [now left|exact Hb].
Qed.

Lemma StronglySorted_flat_map (A B : Type) (R : B -> B -> Prop) (f : A -> list B) (l : list A) :
  (forall x, In x l -> StronglySorted R (f x)) ->
  ForallOrdPairs (fun x y => forall a b, In a (f x) -> In b (f y) -> R a b) l ->
  StronglySorted R (flat_map f l).
Proof.
  intros Hs Ho. induction Ho as [|x l Hx Ho IH]; simpl; [constructor|].
  apply StronglySorted_app.
  - apply Hs. now left.
  - apply IH. intros y Hy. apply Hs. now right.
  - intros a b Ha Hb. apply in_flat_map in Hb. destruct Hb as [y [Hy Hb]].
    rewrite Forall_forall in Hx. exact (Hx y Hy a b Ha Hb).
Qed.

Lemma ForallOrdPairs_impl_In (A : Type) (P Q : A -> A -> Prop) (l : list A) :
  (forall x y, In x l -> In y l -> P x y -> Q x y) ->
  ForallOrdPairs P l -> ForallOrdPairs Q l.
Proof.
  intros H Ho. induction Ho as [|x l Hx Ho IH]; constructor.
  - apply Forall_forall. intros y Hy. rewrite Forall_forall in Hx.
    apply H; [now left|now right|auto].
  - apply IH. intros a b Ha Hb. apply H; now right.
Qed.

Lemma find_sorted_first (A : Type) (R : A -> A -> Prop) (f : A -> bool) (l : list A) (x : A) :
  StronglySorted R l -> find f l = Some x ->
  forall y, In y l -> f y = true -> y = x \/ R x y.
Proof.
  induction 1 as [|z l Hl IH Hz]; intros Hf y Hy Fy; simpl in *; [destruct Hy|].
  destruct (f z) eqn:E.
  - injection Hf as <-. destruct Hy as [->|Hy]; [now left|right].
    rewrite Forall_forall in Hz. now apply Hz.
  - destruct Hy as [->|Hy]; [congruence|]. now apply IH.
Qed.

Lemma find_none_iff (A : Type) (f : A -> bool) (l : list A) :
  find f l = None <-> forall y, In y l -> f y = false.
Proof.
  split; [apply find_none|].
  intros H. destruct (find f l) as [x|] eqn:E; [|reflexivity].
  apply find_some in E. destruct E as [E1 E2]. rewrite (H x E1) in E2. discriminate.
Qed.

Lemma filter_none (A : Type) (f : A -> bool) (l : list A) :
  (forall x, In x l -> f x = false) -> filter f l = [].
Proof.
  induction l as [|x l IH]; intros H; simpl; [reflexivity|].
  rewrite (H x) by now left. apply IH. intros y Hy. apply H. now right.
Qed.


Lemma filter_split_length (A : Type) (f : A -> bool) (l : list A) :
  length (filter f l) + length (filter (fun x => negb (f x)) l) = length l.
Proof.
  induction l as [|x l IH]; simpl; [reflexivity|].
  destruct (f x); simpl; lia.
Qed.

End ListFacts.

(* ===================================================================== *)
(** ** Facts about the built-ins *)
(* ===================================================================== *)

Module PyFacts.

Import Py.

(** Ascending code points, without repetition. *)
Definition code_lt (c d : ascii) : Prop := nat_of_ascii c < nat_of_ascii d.
Definition ascending (l : list ascii) : Prop := StronglySorted code_lt l.

(** The value of a combination read as a binary numeral, first position
    most significant. *)
Fixpoint bits_value (bits : list bool) : nat :=
  match bits with
  | [] => 0
  | b :: rest => (if b then 1 else 0) * 2 ^ length rest + bits_value rest
  end.

Lemma nat_of_ascii_inj (c d : ascii) : nat_of_ascii c = nat_of_ascii d -> c = d.
Proof.
  intros H. rewrite <- (ascii_nat_embedding c), <- (ascii_nat_embedding d).
  now rewrite H.
Qed.

Lemma insert_sorted_In (c x : ascii) (l : list ascii) :
  In x (insert_sorted c l) <-> x = c \/ In x l.
Proof.
  induction l as [|d l IH]; simpl.
  - intuition.
  - destruct (nat_of_ascii c <=? nat_of_ascii d); simpl.
    + intuition.
    + rewrite IH. intuition.
Qed.

Lemma sorted_In (x : ascii) (l : list ascii) : In x (sorted l) <-> In x l.
Proof.
  induction l as [|c l IH]; simpl.
  - tauto.
  - rewrite insert_sorted_In, IH. intuition.
Qed.

Lemma insert_sorted_ascending (c : ascii) (l : list ascii) :
  ascending l -> ~ In c l -> ascending (insert_sorted c l).
Proof.
  unfold ascending. induction 1 as [|d l Hl IH Hd]; intros Hc; simpl.
  - constructor; constructor.
  - destruct (nat_of_ascii c <=? nat_of_ascii d) eqn:E.
    + apply Nat.leb_le in E.
      assert (Hcd : code_lt c d).
      { unfold code_lt. destruct (Nat.eq_dec (nat_of_ascii c) (nat_of_ascii d)) as [e|ne].
        - exfalso. apply Hc. left. symmetry. now apply nat_of_ascii_inj.
        - lia. }
      constructor.
      * now constructor.
      * constructor; [exact Hcd|].
        eapply Forall_impl; [|exact Hd]. unfold code_lt in *. intros; lia.
    + apply Nat.leb_gt in E.
      constructor.
      * apply IH. intros H. apply Hc. now right.
      * apply Forall_forall. intros x Hx.
        apply insert_sorted_In in Hx. destruct Hx as [->|Hx].
        -- exact E.
        -- rewrite Forall_forall in Hd. now apply Hd.
Qed.

Lemma sorted_set_ascending (l : list ascii) : ascending (sorted (set_of_list l)).
Proof.
  unfold set_of_list.
  assert (H : NoDup (nodup ascii_dec l)) by apply NoDup_nodup.
  induction H as [|c l' Hc Hl IH]; simpl.
  - constructor.
  - apply insert_sorted_ascending; [exact IH|].
    now rewrite sorted_In.
Qed.

Lemma ascending_NoDup (l : list ascii) : ascending l -> NoDup l.
Proof.
  induction 1 as [|c l Hl IH Hc]; constructor; auto.
  intros Hin. rewrite Forall_forall in Hc. specialize (Hc c Hin).
  unfold code_lt in Hc. lia.
Qed.

Lemma findall_single_lower_lower (s : string) (prev : bool) (c : ascii) :
  In c (findall_single_lower prev s) -> is_lower c = true.
Proof.
  revert prev. induction s as [|d s IH]; intros prev; simpl; [tauto|].
  destruct (is_lower d) eqn:E; simpl.
  - destruct (negb prev && _); simpl; [intros [<-|H]; [exact E|]|intros H]; eauto.
  - eauto.
Qed.

(** Dictionaries built from pairs with distinct keys. *)
Section DictFacts.
Variables (K V : Type).
Variable K_eq_dec : forall x y : K, {x = y} + {x <> y}.

Lemma dict_set_fresh (d : dict K V) (k : K) (v : V) :
  ~ In k (map fst d) -> dict_set K_eq_dec d k v = d ++ [(k, v)].
Proof.
  induction d as [|[k' v'] d IH]; simpl; intros H; [reflexivity|].
  destruct (K_eq_dec k k') as [->|ne]; [tauto|].
  f_equal. apply IH. tauto.
Qed.

Lemma dict_of_pairs_from (l acc : list (K * V)) :
  NoDup (map fst (acc ++ l)) ->
  fold_left (fun d kv => dict_set K_eq_dec d (fst kv) (snd kv)) l acc = acc ++ l.
Proof.
  revert acc. induction l as [|[k v] l IH]; intros acc H; simpl.
  - now rewrite app_nil_r.
  - rewrite dict_set_fresh.
    + rewrite IH; rewrite <- app_assoc; simpl; [reflexivity|exact H].
    + rewrite map_app in H. simpl in H.
      apply NoDup_remove_2 in H. intros Hin. apply H.
      apply in_or_app. now left.
Qed.

Lemma dict_of_pairs_distinct (l : list (K * V)) :
  NoDup (map fst l) -> dict_of_pairs K_eq_dec l = l.
Proof. intros H. unfold dict_of_pairs. now rewrite dict_of_pairs_from. Qed.

Lemma dict_get_combine (ks : list K) (vs : list V) (k : K) :
  length ks = length vs -> In k ks -> exists v, dict_get K_eq_dec (combine ks vs) k = Some v.
Proof.
  revert vs. induction ks as [|k' ks IH]; intros [|v vs] Hlen Hin; simpl in *; try tauto; try discriminate.
  destruct (K_eq_dec k k') as [e|ne]; [eauto|].
  apply IH; [lia|]. destruct Hin; congruence.
Qed.
End DictFacts.

(** The product of [[False, True]] with itself. *)
Lemma product_bool_step (n : nat) :
  product [false; true] (S n) =
  map (cons false) (product [false; true] n) ++ map (cons true) (product [false; true] n).
Proof. simpl. now rewrite app_nil_r. Qed.

Lemma product_bool_length (n : nat) : length (product [false; true] n) = 2 ^ n.
Proof.
  induction n as [|n IH]; [reflexivity|].
  rewrite product_bool_step, length_app, !length_map, IH. simpl. lia.
Qed.

Lemma product_bool_width (n : nat) (c : list bool) :
  In c (product [false; true] n) -> length c = n.
Proof.
  revert c. induction n as [|n IH]; intros c.
  - simpl. intros [<-|[]]. reflexivity.
  - rewrite product_bool_step, in_app_iff, !in_map_iff.
    intros [[c' [<- H]]|[c' [<- H]]]; simpl; f_equal; auto.
Qed.

Lemma product_bool_nth (n k : nat) (c : list bool) :
  nth_error (product [false; true] n) k = Some c -> bits_value c = k.
Proof.
  revert k c. induction n as [|n IH]; intros k c H.
  - destruct k as [|[|k]]; simpl in H; try discriminate.
    now injection H as <-.
  - rewrite product_bool_step in H.
    assert (Hlen := product_bool_length n).
    destruct (Nat.lt_ge_cases k (2 ^ n)) as [Hk|Hk].
    + rewrite nth_error_app1 in H by (rewrite length_map; lia).
      rewrite nth_error_map in H.
      destruct (nth_error (product [false; true] n) k) as [c'|] eqn:E; [|discriminate].
      injection H as <-. simpl. now apply IH.
    + rewrite nth_error_app2 in H by (rewrite length_map; lia).
      rewrite length_map, Hlen, nth_error_map in H.
      destruct (nth_error (product [false; true] n) (k - 2 ^ n)) as [c'|] eqn:E; [|discriminate].
      injection H as <-. simpl.
      rewrite (product_bool_width n c') by (eapply nth_error_In; eauto).
      rewrite (IH _ _ E). lia.
Qed.

Lemma enumerate_nth (A : Type) (start k : nat) (l : list A) (x : A) :
  nth_error l k = Some x -> nth_error (enumerate start l) k = Some (start + k, x).
Proof.
  unfold enumerate. revert start k. induction l as [|y l IH]; intros start k H.
  - destruct k; discriminate.
  - destruct k as [|k]; simpl in *.
    + injection H as ->. now rewrite Nat.add_0_r.
    + rewrite (IH (S start) k H). f_equal. f_equal. lia.
Qed.

Lemma enumerate_length (A : Type) (start : nat) (l : list A) :
  length (enumerate start l) = length l.
Proof. unfold enumerate. rewrite length_combine, length_seq. lia. Qed.

End PyFacts.

(* ===================================================================== *)
(** ** The truth table *)
(* ===================================================================== *)

Module TruthTableFacts.

Import Py MCDC PyFacts.

Local Open Scope string_scope.
Local Open Scope list_scope.
Local Open Scope nat_scope.

Lemma combine_fst (A B : Type) (l : list A) (l' : list B) :
  length l = length l' -> map fst (combine l l') = l.
Proof.
  revert l'. induction l as [|x l IH]; intros [|y l'] H; simpl in *; try discriminate; auto.
  f_equal. apply IH. lia.
Qed.

Lemma combine_snd (A B : Type) (l : list A) (l' : list B) :
  length l = length l' -> map snd (combine l l') = l'.
Proof.
  revert l'. induction l as [|x l IH]; intros [|y l'] H; simpl in *; try discriminate; auto.
  f_equal. apply IH. lia.
Qed.

(** The variables of a new solver are in ascending order, without
    repetition, and are lowercase letters. *)
Lemma init_variables_ascending (text : string) : ascending (variables (init text)).
Proof. apply sorted_set_ascending. Qed.

Lemma init_variables_lower (text : string) (c : ascii) :
  In c (variables (init text)) -> is_lower c = true.
Proof.
  simpl. unfold _extract_variables, set_of_list.
  rewrite sorted_In, nodup_In. apply findall_single_lower_lower.
Qed.

Section Generate.

Variable py_eval : string -> dict ascii bool -> outcome.

(** The rows one call of [generate_truth_table] appends. *)
Definition new_rows (s : MCDCSolver) : list TestCase :=
  map (make_row py_eval s) (enumerate 1 (product [false; true] (length (variables s)))).

Lemma generate_truth_table_appends (s : MCDCSolver) :
  snd (generate_truth_table py_eval s) = truth_table s ++ new_rows s /\
  truth_table (fst (generate_truth_table py_eval s)) = truth_table s ++ new_rows s /\
  variables (fst (generate_truth_table py_eval s)) = variables s /\
  expression (fst (generate_truth_table py_eval s)) = expression s /\
  mcdc_pairs (fst (generate_truth_table py_eval s)) = mcdc_pairs s.
Proof. repeat split. Qed.

Lemma new_rows_length (s : MCDCSolver) : length (new_rows s) = 2 ^ length (variables s).
Proof.
  unfold new_rows. now rewrite length_map, enumerate_length, product_bool_length.
Qed.

Lemma make_row_values (s : MCDCSolver) (k : nat) (c : list bool) :
  NoDup (variables s) -> length c = length (variables s) ->
  var_values (make_row py_eval s (k, c)) = combine (variables s) c.
Proof.
  intros Hnd Hlen. simpl. unfold zip.
  apply dict_of_pairs_distinct. rewrite combine_fst; auto.
Qed.

(** Row [k] (counted from 0) carries the number [k + 1] and the
    combination whose binary value is [k]. *)
Lemma new_rows_nth (s : MCDCSolver) (k : nat) :
  NoDup (variables s) -> k < 2 ^ length (variables s) ->
  exists c,
    nth_error (product [false; true] (length (variables s))) k = Some c /\
    length c = length (variables s) /\
    bits_value c = k /\
    nth_error (new_rows s) k = Some (make_row py_eval s (k + 1, c)) /\
    var_values (make_row py_eval s (k + 1, c)) = combine (variables s) c.
Proof.
  intros Hnd Hk.
  destruct (nth_error (product [false; true] (length (variables s))) k) as [c|] eqn:E.
  - exists c.
    assert (Hlen : length c = length (variables s)).
    { eapply product_bool_width, nth_error_In; eauto. }
    repeat split; auto.
    + eapply product_bool_nth; eauto.
    + unfold new_rows. rewrite nth_error_map, (enumerate_nth 1 _ _ E).
      simpl. do 3 f_equal. lia.
    + now apply make_row_values.
  - exfalso. apply nth_error_None in E. rewrite product_bool_length in E. lia.
Qed.

Lemma new_rows_nth_inv (s : MCDCSolver) (k : nat) (r : TestCase) :
  NoDup (variables s) -> nth_error (new_rows s) k = Some r ->
  k < 2 ^ length (variables s) /\ test_num r = k + 1 /\
  exists c, length c = length (variables s) /\ bits_value c = k /\
            var_values r = combine (variables s) c /\
            r = make_row py_eval s (k + 1, c).
Proof.
  intros Hnd H.
  assert (Hk : k < 2 ^ length (variables s)).
  { rewrite <- new_rows_length. apply nth_error_Some. congruence. }
  destruct (new_rows_nth s Hnd Hk) as [c [_ [Hlen [Hb [Hn Hv]]]]].
  rewrite H in Hn. injection Hn as ->.
  repeat split; auto. exists c. repeat split; auto.
Qed.

Lemma new_rows_distinct (s : MCDCSolver) :
  NoDup (variables s) -> NoDup (map var_values (new_rows s)).
Proof.
  intros Hnd. apply NoDup_nth_error. intros i j Hi Hij.
  rewrite length_map, new_rows_length in Hi.
  rewrite !nth_error_map in Hij.
  destruct (new_rows_nth s Hnd Hi) as [c [_ [Hlen [Hb [Hn Hv]]]]].
  rewrite Hn in Hij. cbv [option_map] in Hij.
  destruct (nth_error (new_rows s) j) as [r|] eqn:Ej; [|discriminate].
  destruct (new_rows_nth_inv s j Hnd Ej) as [_ [_ [c' [Hlen' [Hb' [Hv' _]]]]]].
  assert (Hvv : var_values (make_row py_eval s (i + 1, c)) = var_values r) by congruence.
  clear Hij. rename Hvv into Hij.
  rewrite Hv, Hv' in Hij.
  assert (c = c').
  { rewrite <- (combine_snd (variables s) c), <- (combine_snd (variables s) c'); congruence. }
  subst c'. congruence.
Qed.

(** Every row binds every variable: [row[v]] never raises [KeyError]. *)
Lemma row_get_total (s : MCDCSolver) (r : TestCase) (v : ascii) :
  NoDup (variables s) -> In r (new_rows s) -> In v (variables s) ->
  exists b, row_get r v = Some b.
Proof.
  intros Hnd Hr Hv. apply In_nth_error in Hr. destruct Hr as [k Hk].
  destruct (new_rows_nth_inv s k Hnd Hk) as [_ [_ [c [Hlen [_ [Hvv _]]]]]].
  unfold row_get. rewrite Hvv. apply dict_get_combine; auto.
Qed.

(** C1. For every decision text, the first call of [generate_truth_table]
    on the new solver returns, with [n] the number of variables, exactly
    [2^n] rows; the variables are in ascending order (sorted, without
    repetition); row [k] (from 0) is numbered [k + 1], assigns the
    variables in that order, and its combination read as a binary
    numeral with the first variable most significant is [k], so the last
    variable varies fastest; the assignments are pairwise distinct. *)
Theorem generate_truth_table_first_call (text : string) :
  let s := init text in
  let n := length (variables s) in
  let table := snd (generate_truth_table py_eval s) in
  ascending (variables s) /\
  length table = 2 ^ n /\
  (forall k, k < 2 ^ n ->
     exists r, nth_error table k = Some r /\
               test_num r = k + 1 /\
               map fst (var_values r) = variables s /\
               bits_value (map snd (var_values r)) = k) /\
  NoDup (map var_values table).
Proof.
  intros s n table.
  assert (Hasc := init_variables_ascending text).
  assert (Hnd := ascending_NoDup Hasc).
  assert (Ht : table = new_rows s) by reflexivity.
  rewrite Ht. split; [exact Hasc|]. split; [apply new_rows_length|]. split.
  - intros k Hk.
    destruct (new_rows_nth s Hnd Hk) as [c [_ [Hlen [Hb [Hn Hv]]]]].
    eexists; split; [exact Hn|]. rewrite Hv.
    rewrite combine_fst, combine_snd by auto. auto.
  - now apply new_rows_distinct.
Qed.

(** A second call appends the same rows once more. *)
Lemma generate_truth_table_twice (s : MCDCSolver) :
  let s1 := fst (generate_truth_table py_eval s) in
  snd (generate_truth_table py_eval s1) = (truth_table s ++ new_rows s) ++ new_rows s.
Proof. reflexivity. Qed.


(** The letters a variable can be. *)
Definition lowercase_letters : list ascii := map ascii_of_nat (seq 97 26).

Lemma is_lower_letter (c : ascii) : is_lower c = true -> In c lowercase_letters.
Proof.
  unfold is_lower, code_between. intros H.
  apply andb_true_iff in H. destruct H as [H1 H2].
  apply Nat.leb_le in H1, H2.
  unfold lowercase_letters. apply in_map_iff.
  exists (nat_of_ascii c). split; [apply ascii_nat_embedding|].
  apply in_seq. lia.
Qed.

(** C7, as the code has it. There is no cap on the number of variables:
    for every decision text the first call returns all [2^n] rows; the
    only bound on [n] is 26, a variable being a single lowercase
    letter. *)
Theorem generate_truth_table_no_cap (text : string) :
  let s := init text in
  let n := length (variables s) in
  n <= 26 /\ length (snd (generate_truth_table py_eval s)) = 2 ^ n.
Proof.
  intros s n. split.
  - change 26 with (length lowercase_letters).
    apply NoDup_incl_length.
    + apply ascending_NoDup, init_variables_ascending.
    + intros c Hc. apply is_lower_letter. eapply init_variables_lower; eauto.
  - apply (new_rows_length s).
Qed.

End Generate.

(** *** Runs on concrete decisions *)

Definition testcase (n : nat) (vv : dict ascii bool) (r : value) : TestCase :=
  {| test_num := n; var_values := vv; result := r |}.

(** The table of [a && b]. *)
Example truth_table_a_and_b :
  snd (generate_truth_table py_eval_model (init "a && b")) =
  [ testcase 1 [("a"%char, false); ("b"%char, false)] (PyBool false);
    testcase 2 [("a"%char, false); ("b"%char, true)] (PyBool false);
    testcase 3 [("a"%char, true); ("b"%char, false)] (PyBool false);
    testcase 4 [("a"%char, true); ("b"%char, true)] (PyBool true) ].
Proof. reflexivity. Qed.

(** Row 3 of the table of [a && b]. *)
Lemma generate_truth_table_first_call_witness :
  exists r,
    nth_error (snd (generate_truth_table py_eval_model (init "a && b"))) 2 = Some r /\
    test_num r = 3 /\
    map fst (var_values r) = ["a"%char; "b"%char] /\
    bits_value (map snd (var_values r)) = 2.
Proof.
  destruct (generate_truth_table_first_call py_eval_model "a && b") as [_ [_ [H _]]].
  apply (H 2). vm_compute. lia.
Defined.


(** Other malformed texts: a name of two letters and an empty operand
    position. *)
Example two_letter_name_not_rejected :
  let s := init "a || bb" in
  variables s = ["a"%char] /\
  snd (generate_truth_table py_eval_model s) =
  [ testcase 1 [("a"%char, false)] PyNone; testcase 2 [("a"%char, true)] (PyBool true) ].
Proof. split; reflexivity. Qed.

Example empty_operand_not_rejected :
  let s := init "a &&" in
  (forall env, py_eval_model (expression s) env = Raises SyntaxError) /\
  snd (generate_truth_table py_eval_model s) =
  [ testcase 1 [("a"%char, false)] PyNone; testcase 2 [("a"%char, true)] PyNone ].
Proof. repeat split. Qed.


(** C6, on the decision [a]. The second call returns four rows, the two
    rows of the table twice over, where the first call returned two. *)
Theorem generate_truth_table_second_call :
  let s0 := init "a" in
  let s1 := fst (generate_truth_table py_eval_model s0) in
  snd (generate_truth_table py_eval_model s0) =
    [ testcase 1 [("a"%char, false)] (PyBool false);
      testcase 2 [("a"%char, true)] (PyBool true) ] /\
  snd (generate_truth_table py_eval_model s1) =
    [ testcase 1 [("a"%char, false)] (PyBool false);
      testcase 2 [("a"%char, true)] (PyBool true);
      testcase 1 [("a"%char, false)] (PyBool false);
      testcase 2 [("a"%char, true)] (PyBool true) ].
Proof. split; reflexivity. Qed.

(** C7, refuted as stated. A decision with 21 variables, one more than the
    suggested cap of 20: the table is generated, with all [2^21] rows. *)
Lemma twenty_one_variables_not_refused :
  let s := init "a&&b&&c&&d&&e&&f&&g&&h&&i&&j&&k&&l&&m&&n&&o&&p&&q&&r&&s&&t&&u" in
  length (variables s) = 21 /\
  length (snd (generate_truth_table py_eval_model s)) = 2 ^ 21.
Proof.
  intros s.
  assert (H : length (variables s) = 21) by (vm_compute; reflexivity).
  split; [exact H|].
  rewrite <- H. apply (new_rows_length py_eval_model s).
Qed.

End TruthTableFacts.

(* ===================================================================== *)
(** ** Independence pairs and the minimal suite *)
(* ===================================================================== *)

Module PairFacts.

Import Py MCDC ListFacts PyFacts TruthTableFacts.

Local Open Scope string_scope.
Local Open Scope list_scope.
Local Open Scope nat_scope.

(** Pairs of test numbers in the order the two loops meet them. *)
Definition pair_lt (p q : nat * nat) : Prop :=
  fst p < fst q \/ (fst p = fst q /\ snd p < snd q).

Lemma enumerate_In (A : Type) (start k : nat) (l : list A) (x : A) :
  In (k, x) (enumerate start l) <-> exists i, k = start + i /\ nth_error l i = Some x.
Proof.
  unfold enumerate. revert start. induction l as [|y l IH]; intros start; simpl.
  - split; [tauto|]. intros [[|i] [_ H]]; discriminate.
  - rewrite IH. split.
    + intros [H|[i [-> H]]].
      * injection H as <- <-. exists 0. split; [lia|reflexivity].
      * exists (S i). split; [lia|exact H].
    + intros [[|i] [-> H]]; simpl in H.
      * injection H as ->. left. f_equal. lia.
      * right. exists i. split; [lia|exact H].
Qed.

Lemma enumerate_In0 (A : Type) (k : nat) (l : list A) (x : A) :
  In (k, x) (enumerate 0 l) <-> nth_error l k = Some x.
Proof.
  rewrite enumerate_In. split.
  - intros [i [-> H]]. exact H.
  - intros H. now exists k.
Qed.

Lemma enumerate_ordered (A : Type) (start : nat) (l : list A) :
  ForallOrdPairs (fun p q : nat * A => fst p < fst q) (enumerate start l).
Proof.
  revert start. induction l as [|y l IH]; intros start.
  - constructor.
  - change (enumerate start (y :: l)) with ((start, y) :: enumerate (S start) l).
    constructor; [|apply IH].
    apply Forall_forall. intros [k x] H. apply enumerate_In in H.
    destruct H as [i [-> _]]. simpl. lia.
Qed.

Lemma pair_lt_sorted_NoDup (l : list (nat * nat)) : StronglySorted pair_lt l -> NoDup l.
Proof.
  induction 1 as [|p l Hl IH Hp]; constructor; auto.
  intros Hin. rewrite Forall_forall in Hp. specialize (Hp p Hin).
  unfold pair_lt in Hp. lia.
Qed.

Section Pairs.

Variable py_eval : string -> dict ascii bool -> outcome.

(** The test of the inner loop, for two rows. *)
Definition qualifies (vars : list ascii) (var : ascii) (test1 test2 : TestCase) : bool :=
  other_vars_same vars var test1 test2
  && target_var_flips var test1 test2
  && result_changes test1 test2.

(** Membership in the list one variable gets, for any table. *)
Lemma pairs_for_In (vars : list ascii) (table : list TestCase) (var : ascii) (a b : nat) :
  In (a, b) (pairs_for vars table var) <->
  exists i j r1 r2,
    i < j /\ nth_error table i = Some r1 /\ nth_error table j = Some r2 /\
    a = test_num r1 /\ b = test_num r2 /\ qualifies vars var r1 r2 = true.
Proof.
  unfold pairs_for, qualifies. rewrite in_flat_map. split.
  - intros [[i r1] [Hi H]]. apply in_flat_map in H. destruct H as [[j r2] [Hj H]].
    apply enumerate_In0 in Hi, Hj.
    destruct (j <=? i) eqn:E; [destruct H|]. apply Nat.leb_gt in E.
    destruct (_ && _) eqn:Q in H; [|destruct H].
    destruct H as [H|[]]. injection H as <- <-.
    exists i, j, r1, r2. auto 10.
  - intros [i [j [r1 [r2 [Hij [Hi [Hj [-> [-> Q]]]]]]]]].
    exists (i, r1). split; [now apply enumerate_In0|].
    apply in_flat_map. exists (j, r2). split; [now apply enumerate_In0|].
    apply Nat.leb_gt in Hij. rewrite Hij, Q. now left.
Qed.

(** On a table whose row at position [i] is numbered [i + 1], the list is
    in strictly ascending order of the pairs. *)
Lemma pairs_for_sorted (vars : list ascii) (table : list TestCase) (var : ascii) :
  (forall i r, nth_error table i = Some r -> test_num r = i + 1) ->
  StronglySorted pair_lt (pairs_for vars table var).
Proof.
  intros Hnum. unfold pairs_for.
  apply StronglySorted_flat_map.
  - intros [i r1] Hi. apply StronglySorted_flat_map.
    + intros [j r2] Hj. destruct (j <=? i); [constructor|].
      destruct (_ && _); repeat constructor.
    + eapply ForallOrdPairs_impl_In; [|apply enumerate_ordered].
      intros [j r2] [j' r2'] Hj Hj' Hlt a b Ha Hb. simpl in Hlt.
      apply enumerate_In0 in Hj, Hj'. apply Hnum in Hj, Hj'.
      destruct (j <=? i); [destruct Ha|]. destruct (j' <=? i); [destruct Hb|].
      destruct (_ && _) in Ha; [|destruct Ha]. destruct (_ && _) in Hb; [|destruct Hb].
      destruct Ha as [<-|[]]. destruct Hb as [<-|[]].
      right. simpl. split; [reflexivity|lia].
  - eapply ForallOrdPairs_impl_In; [|apply enumerate_ordered].
    intros [i r1] [i' r1'] Hi Hi' Hlt a b Ha Hb. simpl in Hlt.
    apply enumerate_In0 in Hi, Hi'. apply Hnum in Hi, Hi'.
    apply in_flat_map in Ha, Hb.
    destruct Ha as [[j r2] [_ Ha]]. destruct Hb as [[j' r2'] [_ Hb]].
    destruct (j <=? i); [destruct Ha|]. destruct (j' <=? i'); [destruct Hb|].
    destruct (_ && _) in Ha; [|destruct Ha]. destruct (_ && _) in Hb; [|destruct Hb].
    destruct Ha as [<-|[]]. destruct Hb as [<-|[]].
    left. simpl. lia.
Qed.

Lemma opt_bool_eqb_eq (x y : option bool) : opt_bool_eqb x y = true <-> x = y.
Proof.
  destruct x as [[|]|], y as [[|]|]; simpl; split; intros H;
    try reflexivity; try discriminate.
Qed.

Lemma qualifies_iff (vars : list ascii) (var : ascii) (r1 r2 : TestCase) :
  qualifies vars var r1 r2 = true <->
  (forall w, In w vars -> w <> var -> row_get r1 w = row_get r2 w) /\
  row_get r1 var <> row_get r2 var /\
  py_ne (result r1) (result r2) = true.
Proof.
  unfold qualifies, other_vars_same, target_var_flips, result_changes.
  rewrite !andb_true_iff, forallb_forall, negb_true_iff.
  split.
  - intros [[H1 H2] H3]. split; [|split; [|exact H3]].
    + intros w Hw Hne. apply opt_bool_eqb_eq, H1, filter_In. split; [exact Hw|].
      apply negb_true_iff, Ascii.eqb_neq, Hne.
    + intros E. apply opt_bool_eqb_eq in E. congruence.
  - intros [H1 [H2 H3]]. split; [split|exact H3].
    + intros w Hw. apply filter_In in Hw. destruct Hw as [Hw Hne].
      apply opt_bool_eqb_eq, H1; [exact Hw|].
      apply Ascii.eqb_neq, negb_true_iff, Hne.
    + destruct (opt_bool_eqb (row_get r1 var) (row_get r2 var)) eqn:E; [|reflexivity].
      apply opt_bool_eqb_eq in E. contradiction.
Qed.

(** Assigning, in turn, [f v] to every key [v] of a list. *)
Section Fold.
Variable V : Type.
Variable f : ascii -> V.

Let assign (d : dict ascii V) (v : ascii) := dict_set ascii_dec d v (f v).
Let item (v : ascii) : ascii * V := (v, f v).

Lemma fold_assign_fresh (vars : list ascii) (acc : dict ascii V) :
  NoDup (map fst acc ++ vars) ->
  fold_left assign vars acc = acc ++ map item vars.
Proof.
  revert acc. induction vars as [|v vars IH]; intros acc H; simpl.
  - now rewrite app_nil_r.
  - unfold assign at 2. rewrite dict_set_fresh.
    + rewrite IH.
      * rewrite <- app_assoc. reflexivity.
      * rewrite map_app. simpl. rewrite <- app_assoc. exact H.
    + apply NoDup_remove_2 in H. intros Hin. apply H, in_or_app. now left.
Qed.

Lemma assign_known (vars : list ascii) (v : ascii) :
  In v vars -> assign (map item vars) v = map item vars.
Proof.
  unfold assign. induction vars as [|w vars IH]; intros H; simpl; [destruct H|].
  destruct (ascii_dec v w) as [->|ne]; [reflexivity|].
  f_equal. apply IH. destruct H; congruence.
Qed.

Lemma fold_assign_known (vars' vars : list ascii) :
  incl vars' vars -> fold_left assign vars' (map item vars) = map item vars.
Proof.
  induction vars' as [|v vars' IH]; intros H; simpl; [reflexivity|].
  rewrite assign_known by (apply H; now left).
  apply IH. intros w Hw. apply H. now right.
Qed.

Lemma dict_get_items (vars : list ascii) (v : ascii) :
  In v vars -> dict_get ascii_dec (map item vars) v = Some (f v).
Proof.
  induction vars as [|w vars IH]; intros H; simpl; [destruct H|].
  destruct (ascii_dec v w) as [->|ne]; [reflexivity|].
  apply IH. destruct H; congruence.
Qed.
End Fold.

(** The states a new solver goes through. *)
Definition generated (s : MCDCSolver) : MCDCSolver := fst (generate_truth_table py_eval s).
Definition analysed (s : MCDCSolver) : MCDCSolver := fst (find_mcdc_pairs py_eval (generated s)).

(** The pairs map of a new solver's table. *)
Definition pairs_of (s : MCDCSolver) : dict ascii (list (nat * nat)) :=
  map (fun v => (v, pairs_for (variables s) (new_rows py_eval s) v)) (variables s).

Lemma new_rows_not_empty (s : MCDCSolver) : is_empty (new_rows py_eval s) = false.
Proof.
  assert (H := new_rows_length py_eval s).
  destruct (new_rows py_eval s); [|reflexivity].
  simpl in H. assert (2 ^ length (variables s) <> 0) by (apply Nat.pow_nonzero; lia). lia.
Qed.

(** [find_mcdc_pairs] on a solver that has a table. *)
Definition set_pairs (s : MCDCSolver) (pm : dict ascii (list (nat * nat))) : MCDCSolver :=
  {| original_expression := original_expression s;
     expression := expression s;
     variables := variables s;
     truth_table := truth_table s;
     mcdc_pairs := pm |}.

Definition assign_all (s : MCDCSolver) : dict ascii (list (nat * nat)) :=
  fold_left
    (fun d var => dict_set ascii_dec d var (pairs_for (variables s) (truth_table s) var))
    (variables s) (mcdc_pairs s).

Lemma find_mcdc_pairs_nonempty (s : MCDCSolver) :
  is_empty (truth_table s) = false ->
  find_mcdc_pairs py_eval s = (set_pairs s (assign_all s), assign_all s).
Proof. intros H. unfold find_mcdc_pairs. rewrite H. reflexivity. Qed.

Section Fresh.
Variable text : string.
Let s0 := init text.

Lemma assign_generated : assign_all (generated s0) = pairs_of s0.
Proof.
  assert (Hnd := ascending_NoDup (init_variables_ascending text)).
  unfold assign_all.
  change (truth_table (generated s0)) with (new_rows py_eval s0).
  change (variables (generated s0)) with (variables s0).
  change (mcdc_pairs (generated s0)) with (@nil (ascii * list (nat * nat))).
  apply (fold_assign_fresh (fun v => pairs_for (variables s0) (new_rows py_eval s0) v) _ []).
  exact Hnd.
Qed.

Lemma analysed_eq : analysed s0 = set_pairs (generated s0) (pairs_of s0).
Proof.
  unfold analysed.
  rewrite find_mcdc_pairs_nonempty by exact (new_rows_not_empty s0).
  now rewrite assign_generated.
Qed.

Lemma find_generated :
  find_mcdc_pairs py_eval (generated s0) = (analysed s0, pairs_of s0).
Proof.
  rewrite analysed_eq.
  rewrite find_mcdc_pairs_nonempty by exact (new_rows_not_empty s0).
  now rewrite assign_generated.
Qed.

Lemma find_fresh : find_mcdc_pairs py_eval s0 = (analysed s0, pairs_of s0).
Proof.
  rewrite <- find_generated.
  rewrite (find_mcdc_pairs_nonempty (generated s0)) by exact (new_rows_not_empty s0).
  reflexivity.
Qed.

Lemma find_analysed : find_mcdc_pairs py_eval (analysed s0) = (analysed s0, pairs_of s0).
Proof.
  rewrite analysed_eq.
  rewrite find_mcdc_pairs_nonempty by exact (new_rows_not_empty s0).
  assert (E : assign_all (set_pairs (generated s0) (pairs_of s0)) = pairs_of s0).
  { unfold assign_all, pairs_of.
    apply (fold_assign_known (fun v => pairs_for (variables s0) (new_rows py_eval s0) v)).
    apply incl_refl. }
  rewrite E. reflexivity.
Qed.

Lemma minimal_fresh :
  get_minimal_test_suite py_eval s0 = (analysed s0, suite_of_pairs (pairs_of s0)).
Proof.
  change (get_minimal_test_suite py_eval s0)
    with (fst (find_mcdc_pairs py_eval s0),
          suite_of_pairs (mcdc_pairs (fst (find_mcdc_pairs py_eval s0)))).
  rewrite find_fresh, analysed_eq. reflexivity.
Qed.

Lemma minimal_generated :
  get_minimal_test_suite py_eval (generated s0) = (analysed s0, suite_of_pairs (pairs_of s0)).
Proof.
  change (get_minimal_test_suite py_eval (generated s0))
    with (fst (find_mcdc_pairs py_eval (generated s0)),
          suite_of_pairs (mcdc_pairs (fst (find_mcdc_pairs py_eval (generated s0))))).
  rewrite find_generated, analysed_eq. reflexivity.
Qed.

Lemma minimal_analysed :
  get_minimal_test_suite py_eval (analysed s0) = (analysed s0, suite_of_pairs (pairs_of s0)).
Proof.
  unfold get_minimal_test_suite.
  destruct (is_empty (mcdc_pairs (analysed s0))).
  - rewrite find_analysed, analysed_eq. reflexivity.
  - rewrite analysed_eq. reflexivity.
Qed.
End Fresh.

Lemma new_rows_numbered (text : string) (i : nat) (r : TestCase) :
  nth_error (new_rows py_eval (init text)) i = Some r ->
  test_num r = i + 1 /\ i < 2 ^ length (variables (init text)).
Proof.
  intros H.
  destruct (new_rows_nth_inv py_eval (init text) i
              (ascending_NoDup (init_variables_ascending text)) H) as [Hi [Hn _]].
  auto.
Qed.

(** C2. For every decision text and every variable [v] of it, the map
    returned by [find_mcdc_pairs] on the new solver gives [v] a list that
    holds [(a, b)] if and only if [a < b], rows [a] and [b] of the truth
    table agree on every variable other than [v], differ on [v], and have
    different results; every such pair is in the list, exactly once. *)
Theorem find_mcdc_pairs_complete (text : string) (v : ascii) :
  let s := init text in
  let table := snd (generate_truth_table py_eval s) in
  let pairs_map := snd (find_mcdc_pairs py_eval s) in
  In v (variables s) ->
  exists l,
    dict_get ascii_dec pairs_map v = Some l /\
    NoDup l /\
    forall a b,
      In (a, b) l <->
      (1 <= a /\ a < b /\
       exists r1 r2,
         nth_error table (a - 1) = Some r1 /\
         nth_error table (b - 1) = Some r2 /\
         (forall w, In w (variables s) -> w <> v -> row_get r1 w = row_get r2 w) /\
         row_get r1 v <> row_get r2 v /\
         py_ne (result r1) (result r2) = true).
Proof.
  intros s table pairs_map Hv.
  exists (pairs_for (variables s) (new_rows py_eval s) v).
  split; [|split].
  - unfold pairs_map, s. rewrite find_fresh. simpl snd.
    apply (dict_get_items (fun v => pairs_for (variables (init text)) (new_rows py_eval (init text)) v)).
    exact Hv.
  - apply pair_lt_sorted_NoDup, pairs_for_sorted.
    intros i r H. now apply new_rows_numbered in H.
  - intros a b. rewrite pairs_for_In.
    change table with (new_rows py_eval s). split.
    + intros [i [j [r1 [r2 [Hij [Hi [Hj [-> [-> Q]]]]]]]]].
      destruct (new_rows_numbered text i Hi) as [-> _].
      destruct (new_rows_numbered text j Hj) as [-> _].
      split; [lia|]. split; [lia|].
      exists r1, r2.
      replace (i + 1 - 1) with i by lia. replace (j + 1 - 1) with j by lia.
      split; [exact Hi|]. split; [exact Hj|]. now apply qualifies_iff.
    + intros [Ha [Hab [r1 [r2 [H1 [H2 Q]]]]]].
      exists (a - 1), (b - 1), r1, r2.
      destruct (new_rows_numbered text _ H1) as [-> _].
      destruct (new_rows_numbered text _ H2) as [-> _].
      split; [lia|]. split; [exact H1|]. split; [exact H2|].
      split; [lia|]. split; [lia|]. now apply qualifies_iff.
Qed.

(** The loop body of [get_minimal_test_suite]. *)
Definition add_first (test_suite : set nat) (item : ascii * list (nat * nat)) : set nat :=
  match snd item with
  | [] => test_suite
  | p :: _ => set_add Nat.eq_dec (snd p) (set_add Nat.eq_dec (fst p) test_suite)
  end.

Definition has_pair (item : ascii * list (nat * nat)) : bool := negb (is_empty (snd item)).

Lemma set_add_length (a : nat) (u : set nat) :
  length (set_add Nat.eq_dec a u) <= S (length u).
Proof.
  induction u as [|b u IH]; simpl; [lia|].
  destruct (Nat.eq_dec a b); simpl; lia.
Qed.

Lemma suite_fold_In (pm : dict ascii (list (nat * nat))) (acc : set nat) (x : nat) :
  In x (fold_left add_first pm acc) <->
  In x acc \/ exists v p rest, In (v, p :: rest) pm /\ (x = fst p \/ x = snd p).
Proof.
  revert acc. induction pm as [|[v l] pm IH]; intros acc; simpl.
  - split; [tauto|]. intros [H|[v [p [rest [[] _]]]]]. exact H.
  - rewrite IH. destruct l as [|p rest]; unfold add_first; simpl.
    + split.
      * intros [H|[v' [p' [rest' [H1 H2]]]]]; [tauto|]. right. exists v', p', rest'. tauto.
      * intros [H|[v' [p' [rest' [[H1|H1] H2]]]]]; [tauto|discriminate|].
        right. exists v', p', rest'. tauto.
    + rewrite !set_add_iff. split.
      * intros [[H|[H|H]]|[v' [p' [rest' [H1 H2]]]]]; try tauto.
        -- right. exists v, p, rest. tauto.
        -- right. exists v, p, rest. tauto.
        -- right. exists v', p', rest'. tauto.
      * intros [H|[v' [p' [rest' [[H1|H1] H2]]]]]; [tauto| |].
        -- injection H1 as <- <- <-. tauto.
        -- right. exists v', p', rest'. tauto.
Qed.

Lemma suite_fold_NoDup (pm : dict ascii (list (nat * nat))) (acc : set nat) :
  NoDup acc -> NoDup (fold_left add_first pm acc).
Proof.
  revert acc. induction pm as [|[v l] pm IH]; intros acc H; simpl; [exact H|].
  apply IH. destruct l as [|p rest]; unfold add_first; simpl; [exact H|].
  now apply set_add_nodup, set_add_nodup.
Qed.

Lemma suite_fold_length (pm : dict ascii (list (nat * nat))) (acc : set nat) :
  length (fold_left add_first pm acc) <= length acc + 2 * length (filter has_pair pm).
Proof.
  revert acc. induction pm as [|[v l] pm IH]; intros acc; simpl; [lia|].
  specialize (IH (add_first acc (v, l))).
  destruct l as [|p rest]; unfold add_first, has_pair in *; simpl in *; [exact IH|].
  assert (H1 := set_add_length (fst p) acc).
  assert (H2 := set_add_length (snd p) (set_add Nat.eq_dec (fst p) acc)).
  lia.
Qed.

Lemma pairs_of_In (text : string) (v : ascii) (l : list (nat * nat)) :
  In (v, l) (pairs_of (init text)) ->
  l = pairs_for (variables (init text)) (new_rows py_eval (init text)) v.
Proof.
  unfold pairs_of. intros H. apply in_map_iff in H.
  destruct H as [w [H _]]. now injection H as <- <-.
Qed.

(** C9. For every pairs map, the suite [get_minimal_test_suite] builds
    holds exactly the two test numbers of the first pair of every
    variable that has a pair, so its size is at most twice the number of
    such variables; on a new solver these numbers are row numbers of the
    table, between 1 and [2^n], and the first pair of a variable is the
    first in the order in which the table is scanned. *)
Theorem minimal_suite_first_pairs :
  (forall pairs_map : dict ascii (list (nat * nat)),
     let suite := suite_of_pairs pairs_map in
     (forall x, In x suite <->
                exists v p rest, In (v, p :: rest) pairs_map /\ (x = fst p \/ x = snd p)) /\
     NoDup suite /\
     length suite <= 2 * length (filter has_pair pairs_map)) /\
  (forall text : string,
     let s := init text in
     let pairs_map := snd (find_mcdc_pairs py_eval s) in
     let suite := snd (get_minimal_test_suite py_eval s) in
     suite = suite_of_pairs pairs_map /\
     (forall x, In x suite -> 1 <= x <= 2 ^ length (variables s)) /\
     (forall v p rest, In (v, p :: rest) pairs_map -> Forall (pair_lt p) rest)).
Proof.
  split.
  - intros pm suite. unfold suite, suite_of_pairs.
    change (fold_left _ pm (empty_set nat)) with (fold_left add_first pm []).
    split; [|split].
    + intros x. rewrite suite_fold_In. simpl. tauto.
    + apply suite_fold_NoDup. constructor.
    + apply (suite_fold_length pm []).
  - intros text s pairs_map suite.
    assert (Es : suite = suite_of_pairs (pairs_of s)).
    { unfold suite, s. now rewrite minimal_fresh. }
    assert (Ep : pairs_map = pairs_of s).
    { unfold pairs_map, s. now rewrite find_fresh. }
    rewrite Es, Ep. split; [reflexivity|]. split.
    + intros x Hx. unfold suite_of_pairs in Hx.
      change (fold_left _ (pairs_of s) (empty_set nat))
        with (fold_left add_first (pairs_of s) []) in Hx.
      apply suite_fold_In in Hx. destruct Hx as [[]|[v [[a b] [rest [Hin Hx]]]]].
      apply pairs_of_In in Hin.
      assert (Hab : In (a, b) (pairs_for (variables s) (new_rows py_eval s) v)).
      { fold s in Hin. rewrite <- Hin. now left. }
      apply pairs_for_In in Hab.
      destruct Hab as [i [j [r1 [r2 [_ [Hi [Hj [-> [-> _]]]]]]]]].
      apply new_rows_numbered in Hi, Hj. fold s in Hi, Hj.
      simpl in Hx. destruct Hx as [->| ->]; lia.
    + intros v p rest Hin. apply pairs_of_In in Hin.
      assert (Hs : StronglySorted pair_lt (p :: rest)).
      { rewrite Hin. apply pairs_for_sorted.
        intros i r H. now apply new_rows_numbered in H. }
      now inversion Hs.
Qed.

(** *** Call orders *)

(** The three public operations and what each returns. *)
Inductive call : Type := CallGenerate | CallFindPairs | CallMinimalSuite.

Inductive answer : Type :=
| TableAnswer (t : list TestCase)
| PairsAnswer (pm : dict ascii (list (nat * nat)))
| SuiteAnswer (u : set nat).

Definition do_call (s : MCDCSolver) (c : call) : MCDCSolver * answer :=
  match c with
  | CallGenerate =>
      let (s', t) := generate_truth_table py_eval s in (s', TableAnswer t)
  | CallFindPairs =>
      let (s', pm) := find_mcdc_pairs py_eval s in (s', PairsAnswer pm)
  | CallMinimalSuite =>
      let (s', u) := get_minimal_test_suite py_eval s in (s', SuiteAnswer u)
  end.

(** The answers of a sequence of calls on one solver object. *)
Fixpoint run (s : MCDCSolver) (calls : list call) : list answer :=
  match calls with
  | [] => []
  | c :: rest => let (s', a) := do_call s c in a :: run s' rest
  end.

(** The answers of the calls made in the order generate, find pairs,
    minimal suite. *)
Definition in_order_pairs (text : string) : dict ascii (list (nat * nat)) :=
  snd (find_mcdc_pairs py_eval (fst (generate_truth_table py_eval (init text)))).

Definition in_order_suite (text : string) : set nat :=
  snd (get_minimal_test_suite py_eval
         (fst (find_mcdc_pairs py_eval (fst (generate_truth_table py_eval (init text)))))).

Definition agrees (text : string) (a : answer) : Prop :=
  match a with
  | TableAnswer _ => True
  | PairsAnswer pm => pm = in_order_pairs text
  | SuiteAnswer u => u = in_order_suite text
  end.

Definition is_generate (c : call) : bool :=
  match c with CallGenerate => true | _ => false end.

Lemma in_order_answers (text : string) :
  in_order_pairs text = pairs_of (init text) /\
  in_order_suite text = suite_of_pairs (pairs_of (init text)).
Proof.
  unfold in_order_pairs, in_order_suite.
  fold (generated (init text)). fold (analysed (init text)).
  now rewrite find_generated, minimal_analysed.
Qed.

Lemma lazy_run_agrees (text : string) (calls : list call) (s : MCDCSolver) :
  existsb is_generate calls = false ->
  s = init text \/ s = generated (init text) \/ s = analysed (init text) ->
  Forall (agrees text) (run s calls).
Proof.
  revert s. induction calls as [|c calls IH]; intros s Hc Hs; simpl.
  - constructor.
  - destruct (in_order_answers text) as [Ep Eu].
    simpl in Hc. apply orb_false_iff in Hc. destruct Hc as [Hc1 Hc2].
    destruct c; [discriminate| |].
    + assert (E : find_mcdc_pairs py_eval s = (analysed (init text), pairs_of (init text))).
      { destruct Hs as [->|[->| ->]];
          [apply find_fresh|apply find_generated|apply find_analysed]. }
      unfold do_call. rewrite E. constructor; [symmetry; exact Ep|]. apply IH; auto.
    + assert (E : get_minimal_test_suite py_eval s
                  = (analysed (init text), suite_of_pairs (pairs_of (init text)))).
      { destruct Hs as [->|[->| ->]];
          [apply minimal_fresh|apply minimal_generated|apply minimal_analysed]. }
      unfold do_call. rewrite E. constructor; [symmetry; exact Eu|]. apply IH; auto.
Qed.

(** X14. The guards [if not self.truth_table] and [if not self.mcdc_pairs]
    do their work: on a new solver, in a sequence of calls of
    [find_mcdc_pairs] and [get_minimal_test_suite], in any order and any
    number of times, started or not by one call of [generate_truth_table],
    every pairs map and every suite returned is the one returned by the
    calls made in the order generate, find pairs, minimal suite.  This is
    a sufficient condition only: it says nothing of the sequences in which
    [generate_truth_table] is called when the table exists. *)
Theorem lazy_calls_agree (text : string) (generate_first : bool) (calls : list call) :
  existsb is_generate calls = false ->
  Forall (agrees text)
         (run (init text) ((if generate_first then [CallGenerate] else []) ++ calls)).
Proof.
  intros Hc. destruct generate_first; simpl.
  - constructor; [exact I|].
    apply lazy_run_agrees; auto.
  - apply lazy_run_agrees; auto.
Qed.

End Pairs.

(** *** Runs on concrete decisions *)

(** [a || b]: each variable has a pair.  [a && (a || b)]: [b] has none. *)
Example pairs_a_or_b :
  snd (find_mcdc_pairs py_eval_model (init "a || b")) =
  [("a"%char, [(1, 3)]); ("b"%char, [(1, 2)])].
Proof. reflexivity. Qed.

Example pairs_redundant_b :
  snd (find_mcdc_pairs py_eval_model (init "a && (a || b)")) =
  [("a"%char, [(1, 3); (2, 4)]); ("b"%char, [])].
Proof. reflexivity. Qed.

Example suite_exam_decision :
  snd (get_minimal_test_suite py_eval_model (init "a || ((!b) && c && d)")) =
  [1; 9; 4; 8; 2; 3].
Proof. reflexivity. Qed.

Lemma find_mcdc_pairs_complete_witness :
  exists l,
    dict_get ascii_dec (snd (find_mcdc_pairs py_eval_model (init "a || b"))) "b"%char = Some l /\
    NoDup l /\
    forall a b,
      In (a, b) l <->
      (1 <= a /\ a < b /\
       exists r1 r2,
         nth_error (snd (generate_truth_table py_eval_model (init "a || b"))) (a - 1) = Some r1 /\
         nth_error (snd (generate_truth_table py_eval_model (init "a || b"))) (b - 1) = Some r2 /\
         (forall w, In w (variables (init "a || b")) -> w <> "b"%char ->
                    row_get r1 w = row_get r2 w) /\
         row_get r1 "b"%char <> row_get r2 "b"%char /\
         py_ne (result r1) (result r2) = true).
Proof.
  apply (@find_mcdc_pairs_complete py_eval_model "a || b" "b"%char).
  vm_compute. tauto.
Defined.

Lemma minimal_suite_first_pairs_witness :
  1 <= 9 <= 2 ^ length (variables (init "a || ((!b) && c && d)")).
Proof.
  destruct (minimal_suite_first_pairs py_eval_model) as [_ H].
  destruct (H "a || ((!b) && c && d)") as [_ [Hx _]].
  apply Hx. vm_compute. tauto.
Defined.

Lemma lazy_calls_agree_witness :
  Forall (agrees py_eval_model "a || b")
         (run py_eval_model (init "a || b")
              [CallGenerate; CallMinimalSuite; CallFindPairs; CallMinimalSuite]).
Proof.
  apply (@lazy_calls_agree py_eval_model "a || b" true
           [CallMinimalSuite; CallFindPairs; CallMinimalSuite]).
  reflexivity.
Defined.

(** C10. The call order matters.  On the decision [a], in the call
    order minimal suite, generate, find pairs, [get_minimal_test_suite]
    generates the missing table, [generate_truth_table] then appends the
    two rows a second time (the defect of C6: the table is never
    cleared), and [find_mcdc_pairs] answers with the pairs of the doubled
    table, [(1,2); (1,2); (2,1); (1,2)], and not with the one pair
    [(1,2)] that the order generate, find pairs, minimal suite gives. *)
Lemma call_order_changes_pairs :
  run py_eval_model (init "a") [CallMinimalSuite; CallGenerate; CallFindPairs] =
  [ SuiteAnswer [1; 2];
    TableAnswer [ testcase 1 [("a"%char, false)] (PyBool false);
                  testcase 2 [("a"%char, true)] (PyBool true);
                  testcase 1 [("a"%char, false)] (PyBool false);
                  testcase 2 [("a"%char, true)] (PyBool true) ];
    PairsAnswer [("a"%char, [(1, 2); (1, 2); (2, 1); (1, 2)])] ] /\
  in_order_pairs py_eval_model "a" = [("a"%char, [(1, 2)])] /\
  ~ Forall (agrees py_eval_model "a")
      (run py_eval_model (init "a") [CallMinimalSuite; CallGenerate; CallFindPairs]).
Proof.
  split; [reflexivity|]. split; [reflexivity|].
  intros H. inversion H as [|x1 l1 _ H1]; subst.
  inversion H1 as [|x2 l2 _ H2]; subst.
  inversion H2 as [|x3 l3 H3 _]; subst.
  vm_compute in H3. discriminate.
Qed.

End PairFacts.

(* ===================================================================== *)
(** ** Set cover *)
(* ===================================================================== *)

Module SetCoverFacts.

Import Py SetCover ListFacts.

Local Open Scope Z_scope.
Local Open Scope nat_scope.


(** Lexicographic order on lists of indices. *)
Fixpoint lex_lt (c d : list nat) : Prop :=
  match c, d with
  | _, [] => False
  | [], _ :: _ => True
  | x :: c', y :: d' => x < y \/ (x = y /\ lex_lt c' d')
  end.

(** The order in which [exact_min_set_cover] is to visit the subsets:
    smaller ones first, those of one size lexicographically. *)
Definition visited_before (c d : list nat) : Prop :=
  length c < length d \/ (length c = length d /\ lex_lt c d).

(** A combination of [r] of the indices [a .. a+n-1]. *)
Definition ascending_in (a n : nat) (c : list nat) : Prop :=
  StronglySorted lt c /\ Forall (fun i => a <= i < a + n) c.


Lemma combinations_zero (A : Type) (pool : list A) : combinations pool 0 = [[]].
Proof. now destruct pool. Qed.

Lemma combinations_seq_In (n a r : nat) (c : list nat) :
  In c (combinations (seq a n) r) <-> ascending_in a n c /\ length c = r.
Proof.
  unfold ascending_in. revert a r c. induction n as [|n IH]; intros a r c.
  - destruct r as [|k]; simpl.
    + split.
      * intros [<-|[]]. repeat constructor.
      * intros [_ H]. left. symmetry. now apply length_zero_iff_nil.
    + split; [tauto|]. intros [[_ H] L]. destruct c as [|x c]; [discriminate|].
      inversion H; subst. lia.
  - destruct r as [|k].
    + rewrite combinations_zero. simpl. split.
      * intros [<-|[]]. repeat constructor.
      * intros [_ H]. left. symmetry. now apply length_zero_iff_nil.
    + change (combinations (seq a (S n)) (S k))
        with (map (cons a) (combinations (seq (S a) n) k) ++ combinations (seq (S a) n) (S k)).
      rewrite in_app_iff, in_map_iff. split.
      * intros [[c' [<- H]]|H].
        -- apply IH in H. destruct H as [[Hs Hr] Hl].
           split; [split|simpl; lia].
           ++ constructor; [exact Hs|]. eapply Forall_impl; [|exact Hr]. simpl. intros; lia.
           ++ constructor; [lia|]. eapply Forall_impl; [|exact Hr]. simpl. intros; lia.
        -- apply IH in H. destruct H as [[Hs Hr] Hl].
           split; [split|exact Hl]; [exact Hs|].
           eapply Forall_impl; [|exact Hr]. simpl. intros; lia.
      * intros [[Hs Hr] Hl]. destruct c as [|x c]; [discriminate|].
        inversion Hs as [|? ? Hs' Hx]; subst. inversion Hr as [|? ? Hxr Hr']; subst.
        destruct (Nat.eq_dec x a) as [->|ne].
        -- left. exists c. split; [reflexivity|]. apply IH.
           split; [split|simpl in Hl; lia]; [exact Hs'|].
           rewrite Forall_forall in *. intros i Hi.
           specialize (Hx i Hi). specialize (Hr' i Hi). lia.
        -- right. apply IH. split; [split|exact Hl]; [exact Hs|].
           constructor; [lia|].
           rewrite Forall_forall in *. intros i Hi.
           specialize (Hx i Hi). specialize (Hr' i Hi). lia.
Qed.

Lemma lex_lt_cons (x : nat) (c d : list nat) : lex_lt c d -> lex_lt (x :: c) (x :: d).
Proof. intros H. simpl. right. now split. Qed.

Lemma combinations_seq_sorted (n a r : nat) :
  StronglySorted lex_lt (combinations (seq a n) r).
Proof.
  revert a r. induction n as [|n IH]; intros a r.
  - destruct r; simpl; repeat constructor.
  - destruct r as [|k]; [rewrite combinations_zero; repeat constructor|].
    change (combinations (seq a (S n)) (S k))
      with (map (cons a) (combinations (seq (S a) n) k) ++ combinations (seq (S a) n) (S k)).
    apply StronglySorted_app.
    + specialize (IH (S a) k).
      induction IH as [|c l Hl IHl Hc]; simpl; constructor; [exact IHl|].
      apply Forall_forall. intros d Hd. apply in_map_iff in Hd.
      destruct Hd as [d' [<- Hd']]. apply lex_lt_cons.
      rewrite Forall_forall in Hc. now apply Hc.
    + apply IH.
    + intros c d Hc Hd. apply in_map_iff in Hc. destruct Hc as [c' [<- _]].
      apply combinations_seq_In in Hd. destruct Hd as [[_ Hr] Hl].
      destruct d as [|y d]; [discriminate|].
      inversion Hr; subst. simpl. left. lia.
Qed.

Lemma sorted_lt_NoDup (c : list nat) : StronglySorted lt c -> NoDup c.
Proof.
  induction 1 as [|x c Hc IH Hx]; constructor; auto.
  intros Hin. rewrite Forall_forall in Hx. specialize (Hx x Hin). lia.
Qed.

Lemma ascending_in_length (t : nat) (c : list nat) : ascending_in 0 t c -> length c <= t.
Proof.
  intros [Hs Hr]. rewrite <- (length_seq t 0).
  apply NoDup_incl_length; [now apply sorted_lt_NoDup|].
  intros i Hi. rewrite Forall_forall in Hr. apply in_seq. now apply Hr.
Qed.

Lemma seq_ordered (a n : nat) : ForallOrdPairs lt (seq a n).
Proof.
  revert a. induction n as [|n IH]; intros a; simpl; constructor; [|apply IH].
  apply Forall_forall. intros i Hi. apply in_seq in Hi. lia.
Qed.

Lemma StronglySorted_impl_In (A : Type) (R R' : A -> A -> Prop) (l : list A) :
  (forall x y, In x l -> In y l -> R x y -> R' x y) ->
  StronglySorted R l -> StronglySorted R' l.
Proof.
  intros H Hs. induction Hs as [|x l Hl IH Hx]; constructor.
  - apply IH. intros a b Ha Hb. apply H; now right.
  - apply Forall_forall. intros y Hy. rewrite Forall_forall in Hx.
    apply H; [now left|now right|auto].
Qed.

(** The subsets [exact_min_set_cover] visits are the non-empty ascending
    lists of test indices, each once, smaller before larger and those of
    one size in lexicographic order. *)
Lemma candidates_In (t : nat) (c : list nat) :
  In c (candidates t) <-> ascending_in 0 t c /\ 1 <= length c.
Proof.
  unfold candidates. rewrite in_flat_map. split.
  - intros [r [Hr Hc]]. apply in_seq in Hr. apply combinations_seq_In in Hc.
    destruct Hc as [Hc <-]. split; [exact Hc|lia].
  - intros [Hc Hl]. exists (length c). split.
    + apply in_seq. apply ascending_in_length in Hc. lia.
    + now apply combinations_seq_In.
Qed.

Lemma candidates_sorted (t : nat) : StronglySorted visited_before (candidates t).
Proof.
  unfold candidates. apply StronglySorted_flat_map.
  - intros r _. eapply StronglySorted_impl_In; [|apply combinations_seq_sorted].
    intros c d Hc Hd Hlt. apply combinations_seq_In in Hc, Hd.
    right. split; [|exact Hlt]. destruct Hc as [_ ->]. now destruct Hd as [_ ->].
  - eapply ForallOrdPairs_impl_In; [|apply seq_ordered].
    intros r r' _ _ Hlt c d Hc Hd. apply combinations_seq_In in Hc, Hd.
    left. destruct Hc as [_ ->]. now destruct Hd as [_ ->].
Qed.


Lemma lex_lt_asym (c d : list nat) : lex_lt c d -> lex_lt d c -> False.
Proof.
  revert d. induction c as [|x c IH]; intros [|y d]; simpl; try tauto.
  intros [H1|[-> H1]] [H2|[H2 H3]]; try lia. eauto.
Qed.

Lemma visited_before_asym (c d : list nat) : visited_before c d -> visited_before d c -> False.
Proof.
  unfold visited_before. intros [H1|[H1 H2]] [H3|[H3 H4]]; try lia.
  eapply lex_lt_asym; eauto.
Qed.

(** What [exact_min_set_cover] returns, for any array. *)
Lemma exact_some_iff (M : ndarray) (c : list nat) :
  exact_min_set_cover M = Some c <->
  In c (candidates (nrows M)) /\ is_full_cover M c = true /\
  forall d, In d (candidates (nrows M)) -> is_full_cover M d = true ->
            d = c \/ visited_before c d.
Proof.
  unfold exact_min_set_cover. split.
  - intros H. destruct (find_some _ _ H) as [H1 H2].
    split; [exact H1|]. split; [exact H2|].
    intros d Hd Fd. eapply find_sorted_first; eauto. apply candidates_sorted.
  - intros [H1 [H2 H3]].
    destruct (find (is_full_cover M) (candidates (nrows M))) as [c'|] eqn:E.
    + destruct (find_some _ _ E) as [E1 E2].
      destruct (find_sorted_first (is_full_cover M) (candidates_sorted (nrows M)) E c H1 H2) as [->|Hb];
        [reflexivity|].
      destruct (H3 c' E1 E2) as [->|Hb']; [reflexivity|].
      exfalso. eapply visited_before_asym; eauto.
    + rewrite (find_none _ _ E c H1) in H2. discriminate.
Qed.

(** *** Coverage vectors *)

Definition bit (b : Z) : Prop := b = 0%Z \/ b = 1%Z.

Definition bitvec (m : nat) (v : list Z) : Prop := length v = m /\ Forall bit v.

(** Every fault is covered by a test of [combo]. *)
Definition covers (M : ndarray) (combo : list nat) : Prop :=
  forall f, f < ncols M -> exists i, In i combo /\ entry M i f = 1%Z.

(** No test covers fault [f]. *)
Definition zero_column (M : ndarray) (f : nat) : Prop :=
  forall i, i < nrows M -> entry M i f = 0%Z.

Lemma lor_bit (a b : Z) : bit a -> bit b -> (Z.lor a b = 1%Z <-> a = 1%Z \/ b = 1%Z).
Proof.
  intros [-> | ->] [-> | ->]; simpl; split; intros H; auto; destruct H; discriminate.
Qed.

Lemma lor_bit_bit (a b : Z) : bit a -> bit b -> bit (Z.lor a b).
Proof. intros [-> | ->] [-> | ->]; simpl; unfold bit; auto. Qed.

Lemma vector_or_length (u v : list Z) :
  length u = length v -> length (vector_or u v) = length u.
Proof.
  revert v. induction u as [|a u IH]; intros [|b v] H; simpl in *; try discriminate; auto.
Qed.

Lemma vector_or_nth (u v : list Z) (f : nat) :
  length u = length v ->
  nth f (vector_or u v) 0%Z = Z.lor (nth f u 0%Z) (nth f v 0%Z).
Proof.
  revert v f. induction u as [|a u IH]; intros [|b v] f H; simpl in *; try discriminate.
  - now destruct f.
  - destruct f as [|f]; [reflexivity|]. apply IH. lia.
Qed.

Lemma vector_or_bits (u v : list Z) :
  Forall bit u -> Forall bit v -> Forall bit (vector_or u v).
Proof.
  intros Hu. revert v. induction Hu as [|a u Ha Hu IH]; intros v Hv; simpl; [constructor|].
  destruct Hv as [|b v Hb Hv]; constructor; [now apply lor_bit_bit|now apply IH].
Qed.

Lemma array_equal_eq (u v : list Z) : array_equal u v = true <-> u = v.
Proof.
  revert v. induction u as [|a u IH]; intros [|b v]; simpl; split; intros H;
    try reflexivity; try discriminate.
  - apply andb_true_iff in H. destruct H as [H1 H2].
    apply Z.eqb_eq in H1. apply IH in H2. congruence.
  - injection H as -> ->. rewrite Z.eqb_refl. now apply IH.
Qed.

Lemma ones_eq (u : list Z) (m : nat) :
  u = ones m <-> length u = m /\ forall f, f < m -> nth f u 0%Z = 1%Z.
Proof.
  unfold ones. revert m. induction u as [|a u IH]; intros [|m]; simpl; split;
    try (intros H; discriminate H); try (intros [H _]; discriminate H).
  - intros _. split; [reflexivity|]. intros; lia.
  - reflexivity.
  - intros H. injection H as -> H. apply IH in H. destruct H as [H1 H2].
    split; [now rewrite H1|]. intros [|f] Hf; [reflexivity|]. apply H2. lia.
  - intros [H1 H2]. f_equal.
    + apply (H2 0). lia.
    + apply IH. split; [lia|]. intros f Hf. apply (H2 (S f)). lia.
Qed.

Section Coverage.

Variable M : ndarray.
Hypothesis wf : coverage_matrix M.

Lemma row_bitvec (i : nat) : i < nrows M -> bitvec (ncols M) (row M i).
Proof.
  intros Hi. destruct wf as [_ [_ H]]. rewrite Forall_forall in H.
  apply H. apply nth_In. exact Hi.
Qed.

Lemma entry_bit (i f : nat) : i < nrows M -> f < ncols M -> bit (entry M i f).
Proof.
  intros Hi Hf. destruct (row_bitvec Hi) as [Hl Hb].
  rewrite Forall_forall in Hb. apply Hb. apply nth_In. now rewrite Hl.
Qed.

Lemma union_from (combo : list nat) (covered : list Z) :
  bitvec (ncols M) covered ->
  Forall (fun i => i < nrows M) combo ->
  let u := fold_left (fun covered idx => vector_or covered (row M idx)) combo covered in
  bitvec (ncols M) u /\
  forall f, f < ncols M ->
    (nth f u 0%Z = 1%Z <->
     nth f covered 0%Z = 1%Z \/ exists i, In i combo /\ entry M i f = 1%Z).
Proof.
  revert covered. induction combo as [|i combo IH]; intros covered Hc Hr; simpl.
  - split; [exact Hc|]. intros f Hf. split; [tauto|]. intros [H|[i [[] _]]]. exact H.
  - inversion Hr as [|? ? Hi Hr']; subst.
    destruct Hc as [Hl Hb]. destruct (row_bitvec Hi) as [Hl' Hb'].
    assert (Hc' : bitvec (ncols M) (vector_or covered (row M i))).
    { split; [rewrite vector_or_length; congruence|now apply vector_or_bits]. }
    destruct (IH _ Hc' Hr') as [H1 H2]. split; [exact H1|].
    intros f Hf. rewrite (H2 f Hf), vector_or_nth by congruence.
    fold (entry M i f). rewrite lor_bit.
    + split.
      * intros [[H|H]|[j [Hj H]]]; eauto.
      * intros [H|[j [[<-|Hj] H]]]; eauto.
    + rewrite Forall_forall in Hb. apply Hb, nth_In. lia.
    + now apply entry_bit.
Qed.

Lemma zeros_bitvec (m : nat) : bitvec m (zeros m).
Proof.
  unfold zeros. split; [apply repeat_length|].
  apply Forall_forall. intros b Hb. apply repeat_spec in Hb. now left.
Qed.

(** The OR of the rows of [combo] is all ones exactly when [combo]
    covers every fault. *)
Lemma union_ones_iff (combo : list nat) :
  Forall (fun i => i < nrows M) combo ->
  (union M combo = ones (ncols M) <-> covers M combo).
Proof.
  intros Hr. unfold union, covers.
  destruct (union_from (zeros_bitvec (ncols M)) Hr) as [[Hl _] H].
  rewrite ones_eq. split.
  - intros [_ H1] f Hf. apply (H f Hf) in H1; [|exact Hf].
    destruct H1 as [H1|H1]; [|exact H1].
    unfold zeros in H1. rewrite nth_repeat in H1. discriminate.
  - intros Hc. split; [exact Hl|]. intros f Hf. apply (H f Hf). right. now apply Hc.
Qed.

Lemma candidates_in_range (c : list nat) :
  In c (candidates (nrows M)) -> Forall (fun i => i < nrows M) c.
Proof.
  intros H. apply candidates_In in H. destruct H as [[_ H] _].
  eapply Forall_impl; [|exact H]. simpl. intros; lia.
Qed.

End Coverage.

Lemma seq_sorted (a n : nat) : StronglySorted lt (seq a n).
Proof.
  revert a. induction n as [|n IH]; intros a; simpl; constructor; [apply IH|].
  apply Forall_forall. intros i Hi. apply in_seq in Hi. lia.
Qed.

Lemma all_tests_candidate (t : nat) : 1 <= t -> In (seq 0 t) (candidates t).
Proof.
  intros Ht. apply candidates_In. rewrite length_seq. split; [split|exact Ht].
  - apply seq_sorted.
  - apply Forall_forall. intros i Hi. apply in_seq in Hi. lia.
Qed.

Lemma forallb_false_exists (A : Type) (f : A -> bool) (l : list A) :
  forallb f l = false -> exists x, In x l /\ f x = false.
Proof.
  induction l as [|x l IH]; simpl; [discriminate|].
  destruct (f x) eqn:E; simpl.
  - intros H. destruct (IH H) as [y [Hy Fy]]. exists y. auto.
  - intros _. exists x. auto.
Qed.

(** Some test covers fault [f]. *)
Definition column_hit (M : ndarray) (f : nat) : bool :=
  existsb (fun i => Z.eqb (entry M i f) 1) (seq 0 (nrows M)).

(** No subset covers all faults exactly when a fault column is zero. *)
Lemma no_cover_iff_zero_column (M : ndarray) :
  coverage_matrix M ->
  ((forall c, In c (candidates (nrows M)) -> union M c <> ones (ncols M)) <->
   exists f, f < ncols M /\ zero_column M f).
Proof.
  intros wf. split.
  - intros H. destruct (forallb (column_hit M) (seq 0 (ncols M))) eqn:E.
    + exfalso. apply (H (seq 0 (nrows M))).
      * apply all_tests_candidate. apply wf.
      * apply (union_ones_iff wf).
        -- apply Forall_forall. intros i Hi. apply in_seq in Hi. lia.
        -- intros f Hf. rewrite forallb_forall in E.
           assert (Hin : In f (seq 0 (ncols M))) by (apply in_seq; lia).
           apply E in Hin. unfold column_hit in Hin. apply existsb_exists in Hin.
           destruct Hin as [i [Hi Hit]]. exists i. split; [exact Hi|now apply Z.eqb_eq].
    + apply forallb_false_exists in E. destruct E as [f [Hf E]].
      apply in_seq in Hf. exists f. split; [lia|]. intros i Hi.
      destruct (entry_bit wf Hi (f := f)) as [H0|H1]; [lia|exact H0|].
      exfalso. unfold column_hit in E.
      assert (X : existsb (fun i => Z.eqb (entry M i f) 1) (seq 0 (nrows M)) = true).
      { apply existsb_exists. exists i. split; [apply in_seq; lia|now apply Z.eqb_eq]. }
      congruence.
  - intros [f [Hf Hz]] c Hc Hu.
    apply (union_ones_iff wf (candidates_in_range M c Hc)) in Hu.
    destruct (Hu f Hf) as [i [Hi H1]].
    assert (Hr := candidates_in_range M c Hc). rewrite Forall_forall in Hr.
    rewrite (Hz i (Hr i Hi)) in H1. discriminate.
Qed.


(** *** The greedy solver *)

(** The runs of the [while uncovered] loop as a relation between the
    state at the head of the loop and the value returned, written with the
    loop's own [gain] and [remove_covered]: a device for the proofs about
    the loop.  What the loop is described to do is stated apart from it,
    over the entries of the matrix, in [greedy_spec] below. *)
Inductive greedy_run (M : ndarray) : list nat -> list nat -> option (list nat) -> Prop :=
| greedy_success (chosen : list nat) :
    greedy_run M [] chosen (Some chosen)
| greedy_infeasible (uncovered chosen : list nat) :
    uncovered <> [] ->
    (forall i, i < nrows M -> gain M uncovered i = 0) ->
    greedy_run M uncovered chosen None
| greedy_choose (uncovered chosen : list nat) (best : nat) (res : option (list nat)) :
    uncovered <> [] ->
    best < nrows M ->
    0 < gain M uncovered best ->
    (forall i, i < nrows M -> gain M uncovered i <= gain M uncovered best) ->
    (forall i, i < best -> gain M uncovered i < gain M uncovered best) ->
    greedy_run M (remove_covered M uncovered best) (chosen ++ [best]) res ->
    greedy_run M uncovered chosen res.

(** The state of the [for i in range(t)] loop after [n] iterations. *)
Definition best_so_far (M : ndarray) (uncovered : list nat) (n : nat)
           (st : option nat * nat) : Prop :=
  match fst st with
  | None => snd st = 0 /\ forall i, i < n -> gain M uncovered i = 0
  | Some b =>
      b < n /\ snd st = gain M uncovered b /\ 0 < snd st /\
      (forall i, i < n -> gain M uncovered i <= snd st) /\
      (forall i, i < b -> gain M uncovered i < snd st)
  end.

Lemma select_best_loop (M : ndarray) (uncovered : list nat) (n : nat) :
  best_so_far M uncovered n
    (fold_left
       (fun (st : option nat * nat) i =>
          let g := gain M uncovered i in
          if snd st <? g then (Some i, g) else st)
       (seq 0 n) (None, 0)).
Proof.
  induction n as [|n IH].
  - simpl. split; [reflexivity|]. intros; lia.
  - rewrite seq_S, fold_left_app. simpl.
    destruct (fold_left _ (seq 0 n) (None, 0)) as [best g] eqn:E.
    unfold best_so_far in *. simpl in *.
    destruct (g <? gain M uncovered n) eqn:L.
    + apply Nat.ltb_lt in L. simpl.
      split; [lia|]. split; [reflexivity|]. split; [lia|]. split.
      * intros i Hi. destruct (Nat.eq_dec i n) as [->|ne]; [lia|].
        destruct best as [b|].
        -- destruct IH as [_ [_ [_ [H _]]]]. specialize (H i). lia.
        -- destruct IH as [_ H]. specialize (H i). lia.
      * intros i Hi. destruct best as [b|].
        -- destruct IH as [_ [_ [_ [H _]]]]. specialize (H i). lia.
        -- destruct IH as [_ H]. specialize (H i). lia.
    + apply Nat.ltb_ge in L. destruct best as [b|]; simpl.
      * destruct IH as [H1 [H2 [H3 [H4 H5]]]].
        split; [lia|]. split; [exact H2|]. split; [exact H3|]. split; [|exact H5].
        intros i Hi. destruct (Nat.eq_dec i n) as [->|ne]; [lia|]. apply H4. lia.
      * destruct IH as [H1 H2]. split; [exact H1|].
        intros i Hi. destruct (Nat.eq_dec i n) as [->|ne]; [lia|]. apply H2. lia.
Qed.

Lemma select_best_spec (M : ndarray) (uncovered : list nat) :
  best_so_far M uncovered (nrows M) (select_best M uncovered).
Proof. apply select_best_loop. Qed.

Lemma remove_covered_length (M : ndarray) (uncovered : list nat) (best : nat) :
  length (remove_covered M uncovered best) + gain M uncovered best = length uncovered.
Proof.
  unfold remove_covered, gain.
  rewrite Nat.add_comm. apply filter_split_length.
Qed.

(** With as much fuel as there are uncovered faults the loop finishes, and
    its result is the one of [greedy_run]. *)
Lemma greedy_loop_spec (M : ndarray) (fuel : nat) (uncovered chosen : list nat) :
  length uncovered <= fuel ->
  exists res,
    greedy_loop fuel M uncovered chosen = Finished res /\
    greedy_run M uncovered chosen res.
Proof.
  revert uncovered chosen. induction fuel as [|fuel IH]; intros uncovered chosen Hlen.
  - destruct uncovered as [|f uncovered]; [|simpl in Hlen; lia].
    exists (Some chosen). split; [reflexivity|constructor].
  - destruct uncovered as [|f uncovered].
    + exists (Some chosen). split; [reflexivity|constructor].
    + remember (f :: uncovered) as unc eqn:Eu.
      assert (Hne : unc <> []) by (subst; discriminate).
      assert (Hs := select_best_spec M unc).
      assert (Hstep : greedy_loop (S fuel) M unc chosen =
                      match select_best M unc with
                      | (None, _) => Finished None
                      | (Some best, best_gain) =>
                          if best_gain =? 0 then Finished None
                          else greedy_loop fuel M (remove_covered M unc best) (chosen ++ [best])
                      end)
        by (subst; reflexivity).
      rewrite Hstep. clear Hstep.
      destruct (select_best M unc) as [[b|] g]; unfold best_so_far in Hs; simpl in Hs.
      * destruct Hs as [H1 [H2 [H3 [H4 H5]]]].
        destruct (g =? 0) eqn:Z; [apply Nat.eqb_eq in Z; lia|].
        assert (Hr := remove_covered_length M unc b).
        destruct (IH (remove_covered M unc b) (chosen ++ [b])) as [res [R1 R2]]; [lia|].
        exists res. split; [exact R1|].
        rewrite H2 in *. now apply greedy_choose with (best := b).
      * destruct Hs as [_ H]. exists None. split; [reflexivity|].
        now apply greedy_infeasible.
Qed.

(** A state of the loop has one result. *)
Lemma greedy_run_deterministic (M : ndarray) (uncovered chosen : list nat)
      (res res' : option (list nat)) :
  greedy_run M uncovered chosen res -> greedy_run M uncovered chosen res' -> res = res'.
Proof.
  intros H. revert res'.
  induction H as [chosen|unc chosen Hne Hz|unc chosen b res Hne Hb Hg Hmax Hlow Hrest IH];
    intros res' H'.
  - inversion H'; subst; try reflexivity; congruence.
  - inversion H' as [| |? ? b' ? _ Hb' Hg' _ _ _]; subst; try reflexivity; try congruence.
    rewrite (Hz b' Hb') in Hg'. lia.
  - inversion H' as [|? ? _ Hz'|? ? b' ? _ Hb' Hg' Hmax' Hlow' Hrest']; subst.
    + congruence.
    + rewrite (Hz' b Hb) in Hg. lia.
    + assert (b = b').
      { destruct (Nat.lt_trichotomy b b') as [L|[E|L]]; [|exact E|].
        - specialize (Hlow' b L). specialize (Hmax b' Hb'). lia.
        - specialize (Hlow b' L). specialize (Hmax' b Hb). lia. }
      subst b'. now apply IH.
Qed.

Lemma greedy_set_cover_spec_result (M : ndarray) :
  exists res,
    greedy_set_cover M = Finished res /\ greedy_run M (seq 0 (ncols M)) [] res.
Proof.
  unfold greedy_set_cover. apply greedy_loop_spec. now rewrite length_seq.
Qed.

Lemma gain_zero_iff (M : ndarray) (uncovered : list nat) (i : nat) :
  gain M uncovered i = 0 <-> forall f, In f uncovered -> entry M i f <> 1%Z.
Proof.
  unfold gain. rewrite length_zero_iff_nil. split.
  - intros H f Hf E. assert (X : In f (filter (fun f => Z.eqb (entry M i f) 1) uncovered)).
    { apply filter_In. split; [exact Hf|now apply Z.eqb_eq]. }
    rewrite H in X. destruct X.
  - intros H. apply filter_none. intros f Hf. apply Z.eqb_neq. now apply H.
Qed.

Lemma remove_covered_In (M : ndarray) (uncovered : list nat) (best f : nat) :
  In f (remove_covered M uncovered best) <-> In f uncovered /\ entry M best f <> 1%Z.
Proof.
  unfold remove_covered. rewrite filter_In, negb_true_iff, Z.eqb_neq. tauto.
Qed.

(** What the loop keeps true: the chosen tests are distinct tests, they
    cover no fault still uncovered, and every fault is uncovered or covered
    by a chosen test. *)
Definition greedy_invariant (M : ndarray) (uncovered chosen : list nat) : Prop :=
  NoDup chosen /\
  Forall (fun i => i < nrows M) chosen /\
  (forall i, In i chosen -> gain M uncovered i = 0) /\
  (forall f, f < ncols M -> In f uncovered \/ exists i, In i chosen /\ entry M i f = 1%Z).

Lemma greedy_run_sound (M : ndarray) (uncovered chosen : list nat) (res : option (list nat)) :
  greedy_run M uncovered chosen res ->
  greedy_invariant M uncovered chosen ->
  forall g, res = Some g ->
            NoDup g /\ Forall (fun i => i < nrows M) g /\ covers M g.
Proof.
  induction 1 as [chosen|unc chosen Hne Hz|unc chosen b res Hne Hb Hg Hmax Hlow Hrest IH];
    intros [I1 [I2 [I3 I4]]] g Hres.
  - injection Hres as <-. split; [exact I1|]. split; [exact I2|].
    intros f Hf. destruct (I4 f Hf) as [[]|H]. exact H.
  - discriminate.
  - apply IH; [|exact Hres]. split; [|split; [|split]].
    + apply NoDup_app; [exact I1|repeat constructor; intros []|].
      intros i Hi [E|[]]. subst i. rewrite (I3 b Hi) in Hg. lia.
    + apply Forall_app. split; [exact I2|]. now repeat constructor.
    + intros i Hi. apply gain_zero_iff. intros f Hf.
      apply remove_covered_In in Hf. destruct Hf as [Hf Hn].
      apply in_app_or in Hi. destruct Hi as [Hi|[E|[]]]; [|subst i; exact Hn].
      apply (proj1 (gain_zero_iff M unc i) (I3 i Hi) f Hf).
    + intros f Hf. destruct (I4 f Hf) as [Hu|[i [Hi He]]].
      * destruct (Z.eq_dec (entry M b f) 1) as [E|N].
        -- right. exists b. split; [apply in_or_app; right; now left|exact E].
        -- left. apply remove_covered_In. now split.
      * right. exists i. split; [apply in_or_app; now left|exact He].
Qed.

Lemma greedy_invariant_start (M : ndarray) : greedy_invariant M (seq 0 (ncols M)) [].
Proof.
  split; [constructor|]. split; [constructor|]. split; [intros i []|].
  intros f Hf. left. apply in_seq. lia.
Qed.

(** The chosen tests in ascending order. *)
Definition in_index_order (t : nat) (g : list nat) : list nat :=
  filter (fun i => existsb (Nat.eqb i) g) (seq 0 t).

Lemma StronglySorted_filter (A : Type) (R : A -> A -> Prop) (f : A -> bool) (l : list A) :
  StronglySorted R l -> StronglySorted R (filter f l).
Proof.
  induction 1 as [|x l Hl IH Hx]; simpl; [constructor|].
  destruct (f x); [|exact IH]. constructor; [exact IH|].
  apply Forall_forall. intros y Hy. apply filter_In in Hy.
  rewrite Forall_forall in Hx. now apply Hx.
Qed.

Lemma in_index_order_In (t : nat) (g : list nat) (i : nat) :
  Forall (fun i => i < t) g -> (In i (in_index_order t g) <-> In i g).
Proof.
  intros Hr. unfold in_index_order. rewrite filter_In, existsb_exists, in_seq. split.
  - intros [_ [j [Hj E]]]. apply Nat.eqb_eq in E. now subst.
  - intros Hi. rewrite Forall_forall in Hr. split; [specialize (Hr i Hi); lia|].
    exists i. split; [exact Hi|apply Nat.eqb_refl].
Qed.


Lemma greedy_some_covers (M : ndarray) (g : list nat) :
  greedy_set_cover M = Finished (Some g) ->
  NoDup g /\ Forall (fun i => i < nrows M) g /\ covers M g.
Proof.
  intros H. destruct (greedy_set_cover_spec_result M) as [res [H1 H2]].
  rewrite H in H1. injection H1 as <-.
  eapply greedy_run_sound; eauto. apply greedy_invariant_start.
Qed.


(** The greedy solver, like the exact one, answers [None] exactly when a
    fault column is zero. *)
Lemma greedy_none_iff_zero_column (M : ndarray) :
  coverage_matrix M ->
  (greedy_set_cover M = Finished None <-> exists f, f < ncols M /\ zero_column M f).
Proof.
  intros wf.
  destruct (greedy_set_cover_spec_result M) as [res [H1 H2]].
  rewrite H1. split.
  - intros E. injection E as ->.
    assert (G : forall unc chosen r,
               greedy_run M unc chosen r -> r = None ->
               Forall (fun f => f < ncols M) unc ->
               exists f, f < ncols M /\ zero_column M f).
    { clear H1 H2. induction 1 as [|unc chosen Hne Hz|unc chosen b r Hne Hb Hg Hmax Hlow Hrest IH];
        intros Hr Hu; [discriminate| |].
      - destruct unc as [|f unc]; [congruence|].
        inversion Hu as [|? ? Hf _]; subst. exists f. split; [exact Hf|].
        intros i Hi. destruct (entry_bit wf Hi Hf) as [H0|H1]; [exact H0|].
        exfalso. apply (proj1 (gain_zero_iff M (f :: unc) i) (Hz i Hi) f); [now left|exact H1].
      - apply IH; [exact Hr|]. apply Forall_forall. intros f Hf.
        apply remove_covered_In in Hf. rewrite Forall_forall in Hu. now apply Hu. }
    apply (G _ _ _ H2 eq_refl). apply Forall_forall. intros f Hf. apply in_seq in Hf. lia.
  - intros [f [Hf Hz]]. destruct res as [g|]; [|reflexivity]. exfalso.
    destruct (greedy_some_covers M H1) as [_ [Hr Hc]].
    destruct (Hc f Hf) as [i [Hi E]]. rewrite Forall_forall in Hr.
    rewrite (Hz i (Hr i Hi)) in E. discriminate.
Qed.

(** *** The greedy procedure as it is described *)

(** Test [i] covers fault [f]: the matrix has a 1 in row [i], column [f]. *)
Definition test_covers (M : ndarray) (i f : nat) : Prop := entry M i f = 1%Z.

(** [k] is the number of faults of the set [uncovered] that test [i]
    covers: the length of a list that holds exactly those faults, each
    once. *)
Definition covers_count (M : ndarray) (uncovered : list nat) (i k : nat) : Prop :=
  exists l,
    NoDup l /\
    (forall f, In f l <-> In f uncovered /\ test_covers M i f) /\
    length l = k.

(** The procedure in the words of its description, for a set of uncovered
    faults and the tests chosen so far.  With no fault uncovered it
    succeeds with the tests chosen.  When no test covers any uncovered
    fault it is infeasible, and the tests chosen so far are not returned.
    Otherwise it selects the test that covers the largest number of
    uncovered faults, the one of lowest index among those that do, adds
    it to the tests chosen, and goes on with the uncovered faults that the
    test does not cover. *)
Inductive greedy_spec (M : ndarray) : list nat -> list nat -> option (list nat) -> Prop :=
| described_success (chosen : list nat) :
    greedy_spec M [] chosen (Some chosen)
| described_infeasible (uncovered chosen : list nat) :
    uncovered <> [] ->
    (forall i f, i < nrows M -> In f uncovered -> ~ test_covers M i f) ->
    greedy_spec M uncovered chosen None
| described_choose (uncovered chosen : list nat) (best k : nat)
                   (remaining : list nat) (res : option (list nat)) :
    uncovered <> [] ->
    best < nrows M ->
    covers_count M uncovered best k ->
    0 < k ->
    (forall i k', i < nrows M -> covers_count M uncovered i k' -> k' <= k) ->
    (forall i k', i < best -> covers_count M uncovered i k' -> k' < k) ->
    (forall f, In f remaining <-> In f uncovered /\ ~ test_covers M best f) ->
    greedy_spec M remaining (chosen ++ [best]) res ->
    greedy_spec M uncovered chosen res.

Lemma same_members_length (l l' : list nat) :
  NoDup l -> NoDup l' -> (forall f, In f l <-> In f l') -> length l = length l'.
Proof.
  intros H H' E. apply Nat.le_antisymm; apply NoDup_incl_length; auto;
    intros f Hf; now apply E.
Qed.

Lemma covers_count_members (M : ndarray) (U V : list nat) (i k : nat) :
  (forall f, In f U <-> In f V) -> covers_count M U i k -> covers_count M V i k.
Proof.
  intros E [l [Hnd [Hl Hk]]]. exists l. split; [exact Hnd|]. split; [|exact Hk].
  intros f. rewrite Hl, E. tauto.
Qed.

Lemma covers_count_unique (M : ndarray) (U : list nat) (i k k' : nat) :
  covers_count M U i k -> covers_count M U i k' -> k = k'.
Proof.
  intros [l [Hnd [Hl <-]]] [l' [Hnd' [Hl' <-]]].
  apply same_members_length; auto. intros f. now rewrite Hl, Hl'.
Qed.

Lemma covers_count_positive (M : ndarray) (U : list nat) (i k : nat) :
  covers_count M U i k -> 0 < k -> exists f, In f U /\ test_covers M i f.
Proof.
  intros [l [_ [Hl <-]]] Hk. destruct l as [|f l]; [simpl in Hk; lia|].
  exists f. apply Hl. now left.
Qed.

(** On a set of faults, the loop's [gain] is that number. *)
Lemma covers_count_gain (M : ndarray) (U : list nat) (i : nat) :
  NoDup U -> covers_count M U i (gain M U i).
Proof.
  intros Hnd. exists (filter (fun f => Z.eqb (entry M i f) 1) U).
  split; [now apply NoDup_filter|]. split; [|reflexivity].
  intros f. rewrite filter_In, Z.eqb_eq. reflexivity.
Qed.

(** The runs of the loop are runs of the described procedure. *)
Lemma greedy_run_described (M : ndarray) (U chosen : list nat) (res : option (list nat)) :
  greedy_run M U chosen res -> NoDup U -> greedy_spec M U chosen res.
Proof.
  induction 1 as [chosen|U chosen Hne Hz|U chosen b res Hne Hb Hg Hmax Hlow Hrest IH];
    intros Hnd.
  - constructor.
  - apply described_infeasible; [exact Hne|].
    intros i f Hi Hf. now apply (proj1 (gain_zero_iff M U i) (Hz i Hi)).
  - apply described_choose with (best := b) (k := gain M U b)
                                (remaining := remove_covered M U b); auto.
    + now apply covers_count_gain.
    + intros i k' Hi Hc.
      rewrite (covers_count_unique Hc (covers_count_gain M i Hnd)). now apply Hmax.
    + intros i k' Hi Hc.
      rewrite (covers_count_unique Hc (covers_count_gain M i Hnd)). now apply Hlow.
    + intros f. apply remove_covered_In.
    + apply IH. now apply NoDup_filter.
Qed.

(** The description leaves no choice: it has one result, and the result
    depends on the uncovered faults as a set only. *)
Lemma greedy_spec_unique (M : ndarray) (U chosen : list nat) (res : option (list nat)) :
  greedy_spec M U chosen res ->
  forall V res', (forall f, In f U <-> In f V) -> greedy_spec M V chosen res' -> res = res'.
Proof.
  induction 1 as [chosen|U chosen Hne Hno
                  |U chosen best k rem res Hne Hb Hk Hpos Hmax Hlow Hrem Hrest IH];
    intros V res' E H'.
  - destruct V as [|f V]; [|exfalso; apply (proj2 (E f)); now left].
    inversion H'; subst; try reflexivity; congruence.
  - inversion H' as [c|V0 c Hne' Hno'|V0 c best' k' rem' r Hne' Hb' Hk' Hpos' _ _ _ _]; subst.
    + destruct U as [|f U]; [congruence|]. exfalso. apply (proj1 (E f)). now left.
    + reflexivity.
    + exfalso. destruct (covers_count_positive Hk' Hpos') as [f [Hf Hc]].
      apply (Hno best' f Hb'); [now apply E|exact Hc].
  - inversion H' as [c|V0 c Hne' Hno'
                     |V0 c best' k' rem' r Hne' Hb' Hk' Hpos' Hmax' Hlow' Hrem' Hrest']; subst.
    + destruct U as [|f U]; [congruence|]. exfalso. apply (proj1 (E f)). now left.
    + exfalso. destruct (covers_count_positive Hk Hpos) as [f [Hf Hc]].
      apply (Hno' best f Hb); [now apply E|exact Hc].
    + assert (EVU : forall f, In f V <-> In f U) by (intros f; symmetry; apply E).
      assert (best = best').
      { destruct (Nat.lt_trichotomy best best') as [L|[Eb|L]]; [|exact Eb|].
        - assert (A := Hlow' best k L (@covers_count_members M U V best k E Hk)).
          assert (B := Hmax best' k' Hb' (@covers_count_members M V U best' k' EVU Hk')). lia.
        - assert (A := Hlow best' k' L (@covers_count_members M V U best' k' EVU Hk')).
          assert (B := Hmax' best k Hb (@covers_count_members M U V best k E Hk)). lia. }
      subst best'. apply (IH rem'); [|exact Hrest'].
      intros f. rewrite Hrem, Hrem', E. reflexivity.
Qed.

(** A run of the loop that answers [None] has met a fault no test covers. *)
Lemma greedy_run_none (M : ndarray) (U chosen : list nat) (res : option (list nat)) :
  greedy_run M U chosen res -> res = None ->
  Forall (fun f => f < ncols M) U ->
  exists f, f < ncols M /\ forall i, i < nrows M -> entry M i f <> 1%Z.
Proof.
  induction 1 as [|U chosen Hne Hz|U chosen b r Hne Hb Hg Hmax Hlow Hrest IH];
    intros Hr Hu; [discriminate| |].
  - destruct U as [|f U]; [congruence|].
    inversion Hu as [|? ? Hf _]; subst. exists f. split; [exact Hf|].
    intros i Hi. apply (proj1 (gain_zero_iff M (f :: U) i) (Hz i Hi)). now left.
  - apply IH; [exact Hr|]. apply Forall_forall. intros f Hf.
    apply remove_covered_In in Hf. rewrite Forall_forall in Hu. now apply Hu.
Qed.

(** C4. For every coverage array the greedy solver finishes, and what it
    returns is the one result of the described procedure started with
    every fault uncovered and no test chosen: it repeatedly selects the
    test covering the largest number of uncovered faults (lowest index
    among equals), adds it, removes the faults it covers from the
    uncovered set, and succeeds with the chosen tests when no fault is
    left.  It answers [None] when no test covers an uncovered fault, so a
    list it returns is never a partial solution: its tests cover every
    fault, and after [None] some fault is covered by no test at all. *)
Theorem greedy_set_cover_follows_description (M : ndarray) :
  exists res,
    greedy_set_cover M = Finished res /\
    greedy_spec M (seq 0 (ncols M)) [] res /\
    (forall res', greedy_spec M (seq 0 (ncols M)) [] res' -> res' = res) /\
    (forall g, res = Some g ->
       forall f, f < ncols M -> exists i, In i g /\ i < nrows M /\ entry M i f = 1%Z) /\
    (res = None ->
       exists f, f < ncols M /\ forall i, i < nrows M -> entry M i f <> 1%Z).
Proof.
  destruct (greedy_set_cover_spec_result M) as [res [H1 H2]].
  assert (Hd : greedy_spec M (seq 0 (ncols M)) [] res).
  { apply greedy_run_described; [exact H2|apply seq_NoDup]. }
  exists res. split; [exact H1|]. split; [exact Hd|]. split; [|split].
  - intros res' H'. symmetry. eapply greedy_spec_unique; [exact Hd| |exact H'].
    intros f. reflexivity.
  - intros g ->. destruct (greedy_some_covers M H1) as [_ [Hr Hc]].
    intros f Hf. destruct (Hc f Hf) as [i [Hi E]]. exists i.
    rewrite Forall_forall in Hr. auto.
  - intros ->. apply (greedy_run_none H2 eq_refl).
    apply Forall_forall. intros f Hf. apply in_seq in Hf. lia.
Qed.

(** *** Runs on concrete matrices *)

Local Open Scope Z_scope.

(** Two tests, each covering one of two faults. *)
Definition two_tests : ndarray := mkArray [[1; 0]; [0; 1]] 2.

(** Four tests over six faults on which the greedy choice is not the best
    one: it starts with the test covering four faults and then needs two
    more, where the first and the last test together cover all. *)
Definition four_tests : ndarray :=
  mkArray [[1; 1; 1; 0; 0; 0]; [0; 1; 1; 1; 1; 0]; [0; 0; 0; 1; 1; 1]; [0; 0; 0; 0; 0; 1]] 6.

(** The second fault is covered by no test. *)
Definition uncovered_fault : ndarray := mkArray [[1; 0; 0]; [0; 0; 1]; [1; 0; 1]] 3.

Ltac solve_bits :=
  repeat (apply Forall_cons; [first [left; reflexivity | right; reflexivity]|]);
  apply Forall_nil.

Ltac solve_coverage_matrix :=
  unfold coverage_matrix, nrows; simpl;
  split; [lia|split; [lia|]];
  repeat (apply Forall_cons; [split; [reflexivity|solve_bits]|]);
  apply Forall_nil.

Lemma two_tests_coverage_matrix : coverage_matrix two_tests.
Proof. solve_coverage_matrix. Defined.

Lemma four_tests_coverage_matrix : coverage_matrix four_tests.
Proof. solve_coverage_matrix. Defined.

Lemma uncovered_fault_coverage_matrix : coverage_matrix uncovered_fault.
Proof. solve_coverage_matrix. Defined.

Example two_tests_covers :
  exact_min_set_cover two_tests = Some [0; 1]%nat /\
  greedy_set_cover two_tests = Finished (Some [0; 1]%nat).
Proof. split; reflexivity. Qed.

Example four_tests_covers :
  exact_min_set_cover four_tests = Some [0; 2]%nat /\
  greedy_set_cover four_tests = Finished (Some [1; 0; 2]%nat).
Proof. split; reflexivity. Qed.

Example uncovered_fault_infeasible :
  exact_min_set_cover uncovered_fault = None /\
  greedy_set_cover uncovered_fault = Finished None.
Proof. split; reflexivity. Qed.


Lemma greedy_set_cover_follows_description_witness :
  exists res,
    greedy_set_cover four_tests = Finished res /\
    greedy_spec four_tests (seq 0 6) [] res /\
    (forall res', greedy_spec four_tests (seq 0 6) [] res' -> res' = res) /\
    (forall g, res = Some g ->
       forall f, (f < 6)%nat ->
                 exists i, In i g /\ (i < nrows four_tests)%nat /\ entry four_tests i f = 1) /\
    (res = None ->
       exists f, (f < 6)%nat /\
                 forall i, (i < nrows four_tests)%nat -> entry four_tests i f <> 1).
Proof. apply (greedy_set_cover_follows_description four_tests). Defined.


End SetCoverFacts.

(* ===================================================================== *)
(** ** More built-ins: whitespace, splitting, integers from text *)
(* ===================================================================== *)

From Stdlib Require Import DecimalString.

Module PyText.

Import Py.

Local Open Scope string_scope.
Local Open Scope list_scope.
Local Open Scope nat_scope.

(** Whitespace of [str.strip] and [str.split] on ASCII text (tab to
    carriage return, the four separators [\x1c] to [\x1f], space), and the
    narrower whitespace [int] skips around a numeral. *)
Definition is_str_space (c : ascii) : bool :=
  code_between 9 13 c || code_between 28 31 c || (nat_of_ascii c =? 32).

Definition is_int_space (c : ascii) : bool :=
  code_between 9 13 c || (nat_of_ascii c =? 32).

Fixpoint lstrip_by (p : ascii -> bool) (s : string) : string :=
  match s with
  | EmptyString => EmptyString
  | String c rest => if p c then lstrip_by p rest else s
  end.

Fixpoint rstrip_by (p : ascii -> bool) (s : string) : string :=
  match s with
  | EmptyString => EmptyString
  | String c rest =>
      match rstrip_by p rest with
      | EmptyString => if p c then EmptyString else String c EmptyString
      | rest' => String c rest'
      end
  end.

(** [s.strip()] *)
Definition strip (s : string) : string := rstrip_by is_str_space (lstrip_by is_str_space s).

(** [s.split()]: the maximal runs of characters that are not whitespace.
    [cur] holds the run being read. *)
Definition flush_word (cur : string) : list string :=
  match cur with
  | EmptyString => []
  | _ => [cur]
  end.

Fixpoint split_from (cur : string) (s : string) : list string :=
  match s with
  | EmptyString => flush_word cur
  | String c rest =>
      if is_str_space c then flush_word cur ++ split_from EmptyString rest
      else split_from (String.append cur (String c EmptyString)) rest
  end.

Definition split (s : string) : list string := split_from EmptyString s.

Definition digit_value (c : ascii) : Z := Z.of_nat (nat_of_ascii c - 48).

(** The digits of a numeral after its first one: single underscores may
    separate digits.  [count] is the number of digits read. *)
Fixpoint int_digits (acc : Z) (count : nat) (after_underscore : bool) (s : string)
  : option (Z * nat) :=
  match s with
  | EmptyString => if after_underscore then None else Some (acc, count)
  | String c rest =>
      if is_digit c then int_digits (10 * acc + digit_value c) (S count) false rest
      else if (nat_of_ascii c =? 95) && negb after_underscore
           then int_digits acc count true rest
           else None
  end.

Definition int_unsigned (s : string) : option (Z * nat) :=
  match s with
  | String c rest => if is_digit c then int_digits (digit_value c) 1 false rest else None
  | EmptyString => None
  end.

(** [int(s)] for ASCII text; [None] stands for [ValueError].  The
    interpreter refuses a numeral of more than [max_str_digits] digits when
    that limit is not 0 ([sys.set_int_max_str_digits], 4300 unless
    changed). *)
Definition int_of_string (max_str_digits : nat) (s : string) : option Z :=
  let body := rstrip_by is_int_space (lstrip_by is_int_space s) in
  let signed :=
    match body with
    | String c rest =>
        if nat_of_ascii c =? 45 then option_map (fun r => (Z.opp (fst r), snd r)) (int_unsigned rest)
        else if nat_of_ascii c =? 43 then int_unsigned rest
        else int_unsigned body
    | EmptyString => None
    end in
  match signed with
  | Some (z, count) =>
      if negb (max_str_digits =? 0) && (max_str_digits <? count) then None else Some z
  | None => None
  end.

(** [str(n)] for a natural number. *)
Definition str_of_nat (n : nat) : string := NilEmpty.string_of_uint (Nat.to_uint n).

End PyText.

(* ===================================================================== *)
(** ** scripts/vector_toolkit_cli.py: reading the coverage matrix *)
(* ===================================================================== *)

Module CoverageInput.

Import Py PyText SetCover.

Local Open Scope string_scope.
Local Open Scope list_scope.
Local Open Scope nat_scope.

(** The exceptions of this part of the script: [ValueError], raised by
    [int] and by [parse_binary_vector], and [EOFError], raised by [input]
    at the end of the input. *)
Inductive error : Type := ValueError | EOFError.

Inductive result (A : Type) : Type :=
| Ok (a : A)
| Raised (e : error).

Arguments Ok {A} a.
Arguments Raised {A} e.

(** A function that reads lines with [input] takes the lines still to be
    read and gives back its result and the lines left.  What it prints is
    not modelled. *)
Definition reader (A : Type) : Type := list string -> result A * list string.

Definition bind (A B : Type) (r : reader A) (k : A -> reader B) : reader B :=
  fun lines =>
    match r lines with
    | (Ok a, rest) => k a rest
    | (Raised e, rest) => (Raised e, rest)
    end.

Definition ret (A : Type) (a : A) : reader A := fun lines => (Ok a, lines).

Notation "x <- r ;; k" := (bind r (fun x => k))
  (at level 61, r at next level, right associativity).

(** [input(prompt)] *)
Definition input : reader string :=
  fun lines =>
    match lines with
    | [] => (Raised EOFError, [])
    | l :: rest => (Ok l, rest)
    end.

Definition tab : string := String (ascii_of_nat 9) EmptyString.

Section Reading.

(** The interpreter's limit on the digits of a numeral, 0 for none. *)
Variable max_str_digits : nat.

(** [[int(x) for x in parts]]: the first failure raises. *)
Fixpoint ints_of (parts : list string) : result (list Z) :=
  match parts with
  | [] => Ok []
  | x :: rest =>
      match int_of_string max_str_digits x with
      | None => Raised ValueError
      | Some z =>
          match ints_of rest with
          | Ok zs => Ok (z :: zs)
          | Raised e => Raised e
          end
      end
  end.

(** [all(ch in "01" for ch in s)] *)
Definition only_bits (s : string) : bool :=
  forallb (fun ch => (nat_of_ascii ch =? 48) || (nat_of_ascii ch =? 49))
          (list_ascii_of_string s).

(** [parse_binary_vector] *)
Definition parse_binary_vector (s : string) (m : nat) : result (list Z) :=
  let s := str_replace tab " " (str_replace "," " " (strip s)) in
  let compact := str_replace " " "" s in
  if only_bits compact && (String.length compact =? m)
  then ints_of (map (fun ch => String ch EmptyString) (list_ascii_of_string compact))
  else
    let parts := filter (fun p => negb (String.eqb p "")) (split s) in
    if negb (length parts =? m) then Raised ValueError
    else
      match ints_of parts with
      | Raised e => Raised e
      | Ok bits =>
          if existsb (fun b => negb (Z.eqb b 0 || Z.eqb b 1)) bits
          then Raised ValueError
          else Ok bits
      end.

Definition below (x : Z) (bound : option Z) : bool :=
  match bound with Some b => Z.ltb x b | None => false end.

Definition above (x : Z) (bound : option Z) : bool :=
  match bound with Some b => Z.ltb b x | None => false end.

(** [get_int]: every iteration of its [while True] loop reads one line. *)
Fixpoint get_int (min_value max_value : option Z) (lines : list string)
  : result Z * list string :=
  match lines with
  | [] => (Raised EOFError, [])
  | l :: rest =>
      match int_of_string max_str_digits (strip l) with
      | None => get_int min_value max_value rest
      | Some x =>
          if below x min_value then get_int min_value max_value rest
          else if above x max_value then get_int min_value max_value rest
          else (Ok x, rest)
      end
  end.

(** The inner [while True] loop of [read_fault_coverage]: lines are read
    until one is a coverage vector. *)
Fixpoint read_vector (m : nat) (lines : list string) : result (list Z) * list string :=
  match lines with
  | [] => (Raised EOFError, [])
  | raw :: rest =>
      match parse_binary_vector (strip raw) m with
      | Ok v => (Ok v, rest)
      | Raised _ => read_vector m rest
      end
  end.

(** The [for i in range(t)] loop of [read_fault_coverage], from test [i]
    on, [count] tests still to read. *)
Fixpoint read_tests (m i count : nat) : reader (list string * list (list Z)) :=
  match count with
  | O => ret ([], [])
  | S count' =>
      line <- input ;;
      let name :=
        match strip line with
        | EmptyString => String.append "T" (str_of_nat (i + 1))
        | stripped => stripped
        end in
      v <- read_vector m ;;
      more <- read_tests m (S i) count' ;;
      ret (name :: fst more, v :: snd more)
  end.

(** [np.vstack(rows)]: at least one row is needed. *)
Definition vstack (rows : list (list Z)) (m : nat) : result ndarray :=
  match rows with
  | [] => Raised ValueError
  | _ :: _ => Ok (mkArray rows m)
  end.

(** [read_fault_coverage] *)
Definition read_fault_coverage : reader (list string * ndarray) :=
  m <- get_int (Some 1%Z) None ;;
  t <- get_int (Some 1%Z) None ;;
  tests <- read_tests (Z.to_nat m) 0 (Z.to_nat t) ;;
  match vstack (snd tests) (Z.to_nat m) with
  | Ok M => ret (fst tests, M)
  | Raised e => fun lines => (Raised e, lines)
  end.

(** What [mode_min_tests_cover_faults] prints after its search. *)
Inductive method : Type := EXACT | GREEDY.

Inductive report : Type :=
| NoCover (used : method)
| Selected (used : method) (chosen_names : list string)
           (number_selected tests : nat) (all_covered : bool).

(** [covered.sum()] *)
Definition vector_sum (v : list Z) : Z := fold_left Z.add v 0%Z.

(** [mode_min_tests_cover_faults].  The greedy loop never runs out of
    iterations (lemma [greedy_loop_spec]); the last case of [chosen] is
    there for the type only. *)
Definition mode_min_tests_cover_faults : reader report :=
  read <- read_fault_coverage ;;
  let names := fst read in
  let M := snd read in
  let t := nrows M in
  let m := ncols M in
  threshold <- get_int (Some 1%Z) None ;;
  let used := if Z.leb (Z.of_nat t) threshold then EXACT else GREEDY in
  let chosen :=
    match used with
    | EXACT => exact_min_set_cover M
    | GREEDY =>
        match greedy_set_cover M with
        | Finished r => r
        | OutOfFuel => None
        end
    end in
  match chosen with
  | None => ret (NoCover used)
  | Some chosen =>
      let chosen_names := map (fun i => nth i names "") chosen in
      let covered := union M chosen in
      ret (Selected used chosen_names (length chosen_names) t
                    (Z.eqb (vector_sum covered) (Z.of_nat m)))
  end.

End Reading.

End CoverageInput.

(* ===================================================================== *)
(** ** Facts about the reading of the coverage matrix *)
(* ===================================================================== *)

Module CoverageInputFacts.

Import Py PyText SetCover CoverageInput ListFacts SetCoverFacts.

Local Open Scope string_scope.
Local Open Scope list_scope.
Local Open Scope nat_scope.

(** The characters of a string. *)
Abbreviation chars := list_ascii_of_string.

Definition is_bit_char (c : ascii) : bool :=
  (nat_of_ascii c =? 48) || (nat_of_ascii c =? 49).

(** The characters a coverage vector is usually typed with: the two
    digits, space, comma and tab. *)
Definition is_vector_char (c : ascii) : bool :=
  is_bit_char c || (nat_of_ascii c =? 32) || (nat_of_ascii c =? 44) || (nat_of_ascii c =? 9).

Lemma chars_append (s1 s2 : string) : chars (String.append s1 s2) = chars s1 ++ chars s2.
Proof. induction s1 as [|c s1 IH]; simpl; [reflexivity|now rewrite IH]. Qed.

Lemma chars_length (s : string) : length (chars s) = String.length s.
Proof. induction s as [|c s IH]; simpl; [reflexivity|now rewrite IH]. Qed.

Lemma code_eq (c : ascii) (n : nat) :
  n < 256 -> (nat_of_ascii c =? n) = true -> c = ascii_of_nat n.
Proof.
  intros _ H. apply Nat.eqb_eq in H. rewrite <- H. symmetry. apply ascii_nat_embedding.
Qed.

(** Replacing a one-character string. *)
Lemma replace_char (c : ascii) (new s : string) :
  chars (str_replace (String c EmptyString) new s) =
  flat_map (fun x => if Ascii.eqb x c then chars new else [x]) (chars s).
Proof.
  unfold str_replace. induction s as [|x s IH]; [reflexivity|].
  cbn [replace_from String.prefix String.length Nat.sub].
  destruct (ascii_dec c x) as [->|ne].
  - replace (String.prefix "" s) with true by (now destruct s).
    simpl. rewrite chars_append, Ascii.eqb_refl. now rewrite IH.
  - simpl. destruct (Ascii.eqb x c) eqn:E.
    + apply Ascii.eqb_eq in E. congruence.
    + now rewrite IH.
Qed.

(** Stripping removes characters of the stripped kind at both ends, and
    nothing else. *)
Lemma lstrip_by_chars (p : ascii -> bool) (s : string) :
  exists pre, chars s = pre ++ chars (lstrip_by p s) /\ Forall (fun c => p c = true) pre.
Proof.
  induction s as [|c s [pre [E H]]]; simpl.
  - exists []. split; [reflexivity|constructor].
  - destruct (p c) eqn:P.
    + exists (c :: pre). split; [simpl; now rewrite E|now constructor].
    + exists []. split; [reflexivity|constructor].
Qed.

Lemma rstrip_by_chars (p : ascii -> bool) (s : string) :
  exists post, chars s = chars (rstrip_by p s) ++ post /\ Forall (fun c => p c = true) post.
Proof.
  induction s as [|c s [post [E H]]]; simpl.
  - exists []. split; [reflexivity|constructor].
  - destruct (rstrip_by p s) as [|d r] eqn:R.
    + simpl in E. destruct (p c) eqn:P.
      * exists (c :: post). split; [simpl; now rewrite E|now constructor].
      * exists post. split; [simpl; now rewrite E|exact H].
    + exists post. split; [simpl; now rewrite E|exact H].
Qed.

Lemma strip_chars (s : string) :
  exists pre post,
    chars s = pre ++ chars (strip s) ++ post /\
    Forall (fun c => is_str_space c = true) pre /\
    Forall (fun c => is_str_space c = true) post.
Proof.
  unfold strip.
  destruct (lstrip_by_chars is_str_space s) as [pre [E1 H1]].
  destruct (rstrip_by_chars is_str_space (lstrip_by is_str_space s)) as [post [E2 H2]].
  exists pre, post. rewrite E1, E2. auto.
Qed.

Lemma strip_keeps (q : ascii -> bool) (s : string) :
  (forall c, is_str_space c = true -> q c = false) ->
  filter q (chars (strip s)) = filter q (chars s).
Proof.
  intros H. destruct (strip_chars s) as [pre [post [E [H1 H2]]]].
  rewrite E, !filter_app.
  rewrite (filter_none q pre), (filter_none q post), app_nil_r; [reflexivity| |];
    intros c Hc; apply H; [rewrite Forall_forall in H2|rewrite Forall_forall in H1]; auto.
Qed.

Lemma strip_Forall (P : ascii -> Prop) (s : string) :
  Forall P (chars s) -> Forall P (chars (strip s)).
Proof.
  intros H. destruct (strip_chars s) as [pre [post [E _]]].
  rewrite E in H. apply Forall_app in H. destruct H as [_ H].
  apply Forall_app in H. tauto.
Qed.

Section ReadingFacts.

Variable max_str_digits : nat.

Lemma ints_of_length (parts : list string) (zs : list Z) :
  ints_of max_str_digits parts = Ok zs -> length zs = length parts.
Proof.
  revert zs. induction parts as [|x parts IH]; intros zs H; simpl in H.
  - now injection H as <-.
  - destruct (int_of_string max_str_digits x); [|discriminate].
    destruct (ints_of max_str_digits parts) as [zs'|]; [|discriminate].
    injection H as <-. simpl. f_equal. now apply IH.
Qed.

(** [int] of one of the digits 0 and 1 is its value, whatever the limit on
    the number of digits. *)
Lemma int_of_bit_char (c : ascii) :
  is_bit_char c = true ->
  int_of_string max_str_digits (String c EmptyString) = Some (digit_value c) /\
  bit (digit_value c).
Proof.
  unfold is_bit_char. intros H. apply orb_true_iff in H.
  destruct H as [H|H]; apply code_eq in H; try lia; subst c;
    (split; [destruct max_str_digits; reflexivity|]); [now left|now right].
Qed.

Lemma ints_of_bit_chars (cs : list ascii) :
  forallb is_bit_char cs = true ->
  ints_of max_str_digits (map (fun ch => String ch EmptyString) cs) = Ok (map digit_value cs) /\
  Forall bit (map digit_value cs).
Proof.
  induction cs as [|c cs IH]; simpl; intros H.
  - split; [reflexivity|constructor].
  - apply andb_true_iff in H. destruct H as [Hc Hcs].
    destruct (int_of_bit_char c Hc) as [E B]. destruct (IH Hcs) as [E' B'].
    rewrite E, E'. split; [reflexivity|now constructor].
Qed.

Lemma parse_binary_vector_shape (s : string) (m : nat) (v : list Z) :
  parse_binary_vector max_str_digits s m = Ok v ->
  length v = m /\ Forall bit v.
Proof.
  unfold parse_binary_vector.
  set (s' := str_replace tab " " (str_replace "," " " (strip s))).
  set (compact := str_replace " " "" s').
  destruct (only_bits compact && (String.length compact =? m)) eqn:B.
  - apply andb_true_iff in B. destruct B as [B1 B2]. apply Nat.eqb_eq in B2.
    destruct (ints_of_bit_chars (chars compact) B1) as [E Hb].
    rewrite E. intros H. injection H as <-.
    split; [|exact Hb]. now rewrite length_map, chars_length.
  - set (parts := filter (fun p => negb (String.eqb p "")) (split s')).
    destruct (negb (length parts =? m)) eqn:L; [discriminate|].
    apply negb_false_iff, Nat.eqb_eq in L.
    destruct (ints_of max_str_digits parts) as [bits|] eqn:E; [|discriminate].
    destruct (existsb _ bits) eqn:X; [discriminate|].
    intros H. injection H as <-. split.
    + apply ints_of_length in E. lia.
    + apply Forall_forall. intros b Hb.
      destruct (Z.eqb b 0 || Z.eqb b 1) eqn:Q.
      * apply orb_true_iff in Q. destruct Q as [Q|Q]; apply Z.eqb_eq in Q; [now left|now right].
      * exfalso. assert (Y : existsb (fun b => negb (Z.eqb b 0 || Z.eqb b 1)) bits = true).
        { apply existsb_exists. exists b. split; [exact Hb|now rewrite Q]. }
        congruence.
Qed.

(** X5. Whenever [parse_binary_vector] returns a vector for the width [m],
    it has exactly [m] entries and each of them is 0 or 1; in every other
    case the function raises. *)
Theorem parse_binary_vector_bits (s : string) (m : nat) (v : list Z) :
  parse_binary_vector max_str_digits s m = Ok v ->
  length v = m /\ forall b, In b v -> b = 0%Z \/ b = 1%Z.
Proof.
  intros H. apply parse_binary_vector_shape in H. destruct H as [Hl Hb].
  split; [exact Hl|]. intros b Hin. rewrite Forall_forall in Hb. now apply Hb.
Qed.

Lemma vector_chars_compact (l : list ascii) :
  forallb is_vector_char l = true ->
  flat_map (fun x => if Ascii.eqb x " " then [] else [x])
    (flat_map (fun x => if Ascii.eqb x (ascii_of_nat 9) then [" "%char] else [x])
       (flat_map (fun x => if Ascii.eqb x "," then [" "%char] else [x]) l))
  = filter is_bit_char l.
Proof.
  induction l as [|c l IH]; simpl; [reflexivity|]. intros H.
  apply andb_true_iff in H. destruct H as [Hc Hl].
  rewrite !flat_map_app. specialize (IH Hl).
  unfold is_vector_char, is_bit_char in Hc.
  repeat (apply orb_true_iff in Hc; destruct Hc as [Hc|Hc]);
    apply code_eq in Hc; try lia; subst c; simpl; rewrite ?app_nil_r; now rewrite IH.
Qed.

(** X6. For a text made only of the digits 0 and 1, spaces, commas and
    tabs that holds exactly [m] digits, [parse_binary_vector] returns
    those digits, in order, as the vector: the formats [1011], [1 0 1 1]
    and [1,0,1,1] all give the same vector. *)
Theorem parse_binary_vector_reads_digits (s : string) (m : nat) :
  forallb is_vector_char (chars s) = true ->
  length (filter is_bit_char (chars s)) = m ->
  parse_binary_vector max_str_digits s m = Ok (map digit_value (filter is_bit_char (chars s))).
Proof.
  intros Hv Hm. unfold parse_binary_vector.
  set (s' := str_replace tab " " (str_replace "," " " (strip s))).
  set (compact := str_replace " " "" s').
  assert (Hs : forallb is_vector_char (chars (strip s)) = true).
  { apply forallb_forall. apply Forall_forall. apply strip_Forall.
    apply Forall_forall. now apply forallb_forall. }
  assert (Ec : chars compact = filter is_bit_char (chars s)).
  { unfold compact, s', tab.
    rewrite !replace_char. simpl (chars " "). simpl (chars "").
    rewrite (vector_chars_compact _ Hs).
    apply strip_keeps. intros c Hc. unfold is_str_space, is_bit_char, code_between in *.
    repeat (apply orb_true_iff in Hc; destruct Hc as [Hc|Hc]);
      try (apply andb_true_iff in Hc; destruct Hc as [H1 H2];
           apply Nat.leb_le in H1, H2);
      try apply Nat.eqb_eq in Hc;
      apply orb_false_iff; split; apply Nat.eqb_neq; lia. }
  assert (B1 : only_bits compact = true).
  { unfold only_bits. fold is_bit_char. rewrite Ec.
    apply forallb_forall. intros c Hc. apply filter_In in Hc. tauto. }
  assert (B2 : (String.length compact =? m) = true).
  { apply Nat.eqb_eq. now rewrite <- chars_length, Ec. }
  rewrite B1, B2. simpl andb. cbv iota.
  rewrite Ec. apply ints_of_bit_chars.
  apply forallb_forall. intros c Hc. apply filter_In in Hc. tauto.
Qed.

(** A line [get_int] accepts, and the integer it reads from it. *)
Definition accepted (min_value max_value : option Z) (l : string) (x : Z) : Prop :=
  int_of_string max_str_digits (strip l) = Some x /\
  below x min_value = false /\ above x max_value = false.

Definition within (min_value max_value : option Z) (x : Z) : Prop :=
  (forall b, min_value = Some b -> (b <= x)%Z) /\
  (forall b, max_value = Some b -> (x <= b)%Z).

Lemma accepted_within (mn mx : option Z) (l : string) (x : Z) :
  accepted mn mx l x -> within mn mx x.
Proof.
  intros [_ [H1 H2]]. split; intros b ->; simpl in *; [apply Z.ltb_ge in H1|apply Z.ltb_ge in H2]; lia.
Qed.

Lemma get_int_step (mn mx : option Z) (l : string) (rest : list string) :
  (exists x, accepted mn mx l x /\ get_int max_str_digits mn mx (l :: rest) = (Ok x, rest)) \/
  ((forall x, ~ accepted mn mx l x) /\
   get_int max_str_digits mn mx (l :: rest) = get_int max_str_digits mn mx rest).
Proof.
  unfold accepted. simpl.
  destruct (int_of_string max_str_digits (strip l)) as [x|]; [|right; split; [intros x [H _]; discriminate|reflexivity]].
  destruct (below x mn) eqn:B.
  - right. split; [|reflexivity]. intros y [H [H1 _]]. injection H as <-. congruence.
  - destruct (above x mx) eqn:A.
    + right. split; [|reflexivity]. intros y [H [_ H2]]. injection H as <-. congruence.
    + left. exists x. auto.
Qed.

(** X7. [get_int] returns the integer of the first line that, stripped,
    is an integer numeral within the bounds, and leaves the lines after
    it; the lines before it are read and skipped.  The integer returned is
    therefore never below [min_value] or above [max_value].  When no line
    qualifies, all lines are read and [EOFError] is raised. *)
Theorem get_int_first_accepted (mn mx : option Z) (lines : list string) :
  (forall x rest,
     get_int max_str_digits mn mx lines = (Ok x, rest) ->
     within mn mx x /\
     exists skipped l,
       lines = skipped ++ l :: rest /\ accepted mn mx l x /\
       forall l', In l' skipped -> forall y, ~ accepted mn mx l' y) /\
  (forall e rest,
     get_int max_str_digits mn mx lines = (Raised e, rest) ->
     e = EOFError /\ rest = [] /\
     forall l, In l lines -> forall y, ~ accepted mn mx l y).
Proof.
  induction lines as [|l lines [IH1 IH2]].
  - split; intros ? rest H; simpl in H; [discriminate|].
    injection H as <- <-. split; [reflexivity|]. split; [reflexivity|]. intros l [].
  - destruct (get_int_step mn mx l lines) as [[x [Hx E]]|[Hl E]]; rewrite E; split.
    + intros y rest H. injection H as <- <-. split; [eapply accepted_within; eauto|].
      exists [], l. split; [reflexivity|]. split; [exact Hx|]. intros l' [].
    + intros e rest H. discriminate.
    + intros x rest H. destruct (IH1 x rest H) as [W [skipped [l0 [E1 [A S]]]]].
      split; [exact W|]. exists (l :: skipped), l0. split; [simpl; now rewrite E1|].
      split; [exact A|]. intros l' [<-|Hl']; [exact Hl|now apply S].
    + intros e rest H. destruct (IH2 e rest H) as [He [Hr Hn]].
      split; [exact He|]. split; [exact Hr|]. intros l' [<-|Hl']; [exact Hl|now apply Hn].
Qed.

Lemma get_int_within (mn mx : option Z) (lines : list string) (x : Z) (rest : list string) :
  get_int max_str_digits mn mx lines = (Ok x, rest) -> within mn mx x.
Proof.
  revert x rest. induction lines as [|l lines IH]; intros x rest H; [discriminate|].
  destruct (get_int_step mn mx l lines) as [[y [Hy E]]|[_ E]]; rewrite E in H.
  - injection H as <- <-. eapply accepted_within; eauto.
  - eauto.
Qed.

Lemma bind_ok (A B : Type) (r : reader A) (k : A -> reader B)
      (lines rest : list string) (b : B) :
  bind r k lines = (Ok b, rest) ->
  exists a mid, r lines = (Ok a, mid) /\ k a mid = (Ok b, rest).
Proof.
  unfold bind. destruct (r lines) as [[a|e] mid]; [eauto|discriminate].
Qed.

Lemma read_vector_bits (m : nat) (lines rest : list string) (v : list Z) :
  read_vector max_str_digits m lines = (Ok v, rest) -> bitvec m v.
Proof.
  revert v rest. induction lines as [|raw lines IH]; intros v rest H; simpl in H; [discriminate|].
  destruct (parse_binary_vector max_str_digits (strip raw) m) as [w|] eqn:E.
  - injection H as <- <-. now apply parse_binary_vector_shape in E.
  - eauto.
Qed.

Lemma read_tests_rows (m count i : nat) (lines rest : list string)
      (names : list string) (rows : list (list Z)) :
  read_tests max_str_digits m i count lines = (Ok (names, rows), rest) ->
  length names = count /\ length rows = count /\
  Forall (bitvec m) rows /\ Forall (fun n => n <> "") names.
Proof.
  revert i lines rest names rows.
  induction count as [|count IH]; intros i lines rest names rows H; simpl in H.
  - unfold ret in H. injection H as <- <- <-. repeat split; constructor.
  - apply bind_ok in H. destruct H as [line [l1 [_ H]]].
    apply bind_ok in H. destruct H as [v [l2 [Hv H]]].
    apply bind_ok in H. destruct H as [[names' rows'] [l3 [Hm H]]].
    unfold ret in H. simpl in H. injection H as <- <- <-.
    apply read_vector_bits in Hv. apply IH in Hm.
    destruct Hm as [H1 [H2 [H3 H4]]].
    split; [simpl; lia|]. split; [simpl; lia|]. split; [now constructor|].
    constructor; [|exact H4].
    destruct (strip line) as [|c r]; [simpl|]; discriminate.
Qed.

Lemma read_fault_coverage_shape (lines rest : list string)
      (names : list string) (M : ndarray) :
  read_fault_coverage max_str_digits lines = (Ok (names, M), rest) ->
  exists m t l3,
    (1 <= m)%Z /\ (1 <= t)%Z /\ ncols M = Z.to_nat m /\
    read_tests max_str_digits (Z.to_nat m) 0 (Z.to_nat t) l3 = (Ok (names, rows M), rest).
Proof.
  unfold read_fault_coverage. intros H.
  apply bind_ok in H. destruct H as [m [l1 [Hm H]]].
  apply bind_ok in H. destruct H as [t [l2 [Ht H]]].
  apply bind_ok in H. destruct H as [[names' vs] [l3 [Hr H]]].
  apply get_int_within in Hm, Ht.
  destruct Hm as [Hm _]. specialize (Hm 1%Z eq_refl).
  destruct Ht as [Ht _]. specialize (Ht 1%Z eq_refl).
  simpl in H. destruct vs as [|r vs]; simpl in H; [discriminate|].
  unfold ret in H. injection H as <- <- <-.
  exists m, t, l2. auto.
Qed.

Lemma read_fault_coverage_wf (lines rest : list string)
      (names : list string) (M : ndarray) :
  read_fault_coverage max_str_digits lines = (Ok (names, M), rest) ->
  coverage_matrix M.
Proof.
  intros H. apply read_fault_coverage_shape in H.
  destruct H as [m [t [l3 [Hm [Ht [Hc Hr]]]]]].
  apply read_tests_rows in Hr. destruct Hr as [_ [H2 [H3 _]]].
  unfold coverage_matrix, nrows. rewrite Hc, H2.
  split; [lia|]. split; [lia|exact H3].
Qed.

(** X8. Whatever is typed, a matrix that [read_fault_coverage] returns
    is a coverage matrix: it has at least one fault column and at least
    one test, and every row has one bit, 0 or 1, per fault; there is one
    name per test, none of them empty. *)
Theorem read_fault_coverage_matrix (lines rest : list string)
        (names : list string) (M : ndarray) :
  read_fault_coverage max_str_digits lines = (Ok (names, M), rest) ->
  coverage_matrix M /\ length names = nrows M /\ Forall (fun n => n <> "") names.
Proof.
  intros H. split; [eapply read_fault_coverage_wf; eauto|].
  apply read_fault_coverage_shape in H.
  destruct H as [m [t [l3 [_ [_ [_ Hr]]]]]].
  apply read_tests_rows in Hr. destruct Hr as [H1 [H2 [_ H4]]].
  split; [unfold nrows; congruence|exact H4].
Qed.

End ReadingFacts.

End CoverageInputFacts.

(* ===================================================================== *)
(** ** More about the two solvers *)
(* ===================================================================== *)

Module SolverFacts.

Import Py SetCover ListFacts SetCoverFacts.

Local Open Scope Z_scope.
Local Open Scope nat_scope.

(** Any list of tests, put in index order without repetition, is one of the
    subsets the exact search visits, and is no longer than the list. *)
Lemma in_index_order_shorter (t : nat) (g : list nat) :
  Forall (fun i => i < t) g -> g <> [] ->
  In (in_index_order t g) (candidates t) /\ length (in_index_order t g) <= length g.
Proof.
  intros Hr Hne.
  assert (Hs : StronglySorted lt (in_index_order t g))
    by apply StronglySorted_filter, seq_sorted.
  split.
  - apply candidates_In. split; [split; [exact Hs|]|].
    + apply Forall_forall. intros i Hi. apply (in_index_order_In i Hr) in Hi.
      rewrite Forall_forall in Hr. specialize (Hr i Hi). lia.
    + destruct g as [|i g]; [congruence|].
      assert (Hi : In i (in_index_order t (i :: g))) by (apply (in_index_order_In i Hr); now left).
      destruct (in_index_order t (i :: g)); [destruct Hi|simpl; lia].
  - apply NoDup_incl_length; [now apply sorted_lt_NoDup|].
    intros i Hi. now apply (in_index_order_In i Hr).
Qed.

Lemma exact_optimal_helper (M : ndarray) (e : list nat) :
  coverage_matrix M ->
  exact_min_set_cover M = Some e ->
  StronglySorted lt e /\
  Forall (fun i => i < nrows M) e /\
  covers M e /\
  (forall g, Forall (fun i => i < nrows M) g -> covers M g -> length e <= length g).
Proof.
  intros wf He. apply exact_some_iff in He. destruct He as [He1 [He2 He3]].
  assert (Hr := candidates_in_range M e He1).
  split; [apply candidates_In in He1; apply He1|]. split; [exact Hr|]. split.
  - apply (union_ones_iff wf Hr). now apply array_equal_eq.
  - intros g Hg Hc.
    assert (Hne : g <> []).
    { destruct wf as [Hm _]. destruct (Hc 0 Hm) as [i [Hi _]]. intros ->. destruct Hi. }
    destruct (in_index_order_shorter Hg Hne) as [Hin Hlen].
    assert (Hcov : is_full_cover M (in_index_order (nrows M) g) = true).
    { apply array_equal_eq, (union_ones_iff wf (candidates_in_range M _ Hin)).
      intros f Hf. destruct (Hc f Hf) as [i [Hi E]]. exists i. split; [|exact E].
      now apply (in_index_order_In i Hg). }
    destruct (He3 _ Hin Hcov) as [E|[L|[L _]]]; [rewrite E in Hlen|..]; lia.
Qed.

(** X9. On a coverage matrix, the tests returned by [exact_min_set_cover]
    are in ascending order and cover every fault; no list of tests that
    covers every fault is shorter, whatever tests it holds and in whatever
    order; and none of the returned tests can be left out. *)
Theorem exact_min_set_cover_optimal (M : ndarray) (e : list nat) :
  coverage_matrix M ->
  exact_min_set_cover M = Some e ->
  StronglySorted lt e /\
  Forall (fun i => i < nrows M) e /\
  covers M e /\
  (forall g, Forall (fun i => i < nrows M) g -> covers M g -> length e <= length g) /\
  (forall i, In i e -> ~ covers M (remove Nat.eq_dec i e)).
Proof.
  intros wf He. destruct (exact_optimal_helper wf He) as [Hs [Hr [Hc Hopt]]].
  split; [exact Hs|]. split; [exact Hr|]. split; [exact Hc|]. split; [exact Hopt|].
  intros i Hi Hc'.
  assert (Hl := remove_length_lt Nat.eq_dec e i Hi).
  assert (Hg : Forall (fun j => j < nrows M) (remove Nat.eq_dec i e)).
  { apply Forall_forall. intros j Hj. apply in_remove in Hj.
    rewrite Forall_forall in Hr. now apply Hr. }
  specialize (Hopt _ Hg Hc'). lia.
Qed.

(** Along the greedy procedure: the tests chosen plus the faults still
    uncovered never outnumber the faults, and every test chosen later
    covers a fault that no test chosen before it covers. *)
Lemma greedy_run_progress (M : ndarray) (uncovered chosen : list nat)
      (res : option (list nat)) :
  greedy_run M uncovered chosen res ->
  (forall i, In i chosen -> gain M uncovered i = 0) ->
  forall g, res = Some g ->
    length g <= length chosen + length uncovered /\
    exists later,
      g = chosen ++ later /\
      forall pre b post,
        later = pre ++ b :: post ->
        exists f, entry M b f = 1%Z /\
                  forall j, In j (chosen ++ pre) -> entry M j f <> 1%Z.
Proof.
  induction 1 as [chosen|unc chosen Hne Hz|unc chosen b res Hne Hb Hg Hmax Hlow Hrest IH];
    intros I3 g Hres.
  - injection Hres as <-. split; [simpl; lia|]. exists []. split; [now rewrite app_nil_r|].
    intros [|? ?] ? ? H; discriminate.
  - discriminate.
  - assert (I3' : forall i, In i (chosen ++ [b]) ->
                            gain M (remove_covered M unc b) i = 0).
    { intros i Hi. apply gain_zero_iff. intros f Hf.
      apply remove_covered_In in Hf. destruct Hf as [Hf Hn].
      apply in_app_or in Hi. destruct Hi as [Hi|[E|[]]]; [|subst i; exact Hn].
      apply (proj1 (gain_zero_iff M unc i) (I3 i Hi) f Hf). }
    destruct (IH I3' g Hres) as [Hlen [later [Eg Hl]]].
    assert (Hr := remove_covered_length M unc b).
    split; [rewrite length_app in Hlen; simpl in Hlen; lia|].
    exists (b :: later). split; [now rewrite Eg, <- app_assoc|].
    intros pre b0 post E. destruct pre as [|p pre]; simpl in E.
    + injection E as <- <-. rewrite app_nil_r.
      unfold gain in Hg.
      destruct (filter (fun f => Z.eqb (entry M b f) 1) unc) as [|f fs] eqn:F;
        [simpl in Hg; lia|].
      assert (Hf : In f (filter (fun f => Z.eqb (entry M b f) 1) unc))
        by (rewrite F; now left).
      apply filter_In in Hf. destruct Hf as [Hf1 Hf2]. apply Z.eqb_eq in Hf2.
      exists f. split; [exact Hf2|]. intros j Hj.
      apply (proj1 (gain_zero_iff M unc j) (I3 j Hj) f Hf1).
    + injection E as <- E. destruct (Hl pre b0 post E) as [f [H1 H2]].
      exists f. split; [exact H1|]. intros j Hj. apply H2.
      rewrite <- app_assoc. exact Hj.
Qed.

(** X10. The tests [greedy_set_cover] returns are distinct tests, at most
    as many as there are tests and at most as many as there are faults,
    and each of them covers a fault that none of the tests chosen before
    it covers. *)
Theorem greedy_set_cover_economy (M : ndarray) (g : list nat) :
  greedy_set_cover M = Finished (Some g) ->
  NoDup g /\
  length g <= nrows M /\
  length g <= ncols M /\
  forall pre b post,
    g = pre ++ b :: post ->
    exists f, entry M b f = 1%Z /\ forall j, In j pre -> entry M j f <> 1%Z.
Proof.
  intros H. destruct (greedy_some_covers M H) as [Hnd [Hr _]].
  destruct (greedy_set_cover_spec_result M) as [res [H1 H2]].
  rewrite H in H1. injection H1 as <-.
  destruct (greedy_run_progress H2 (fun i (Hi : In i []) => match Hi with end) eq_refl)
    as [Hlen [later [Eg Hl]]].
  simpl in Hlen, Eg. rewrite length_seq in Hlen. subst later.
  split; [exact Hnd|]. split; [|split; [exact Hlen|]].
  - rewrite <- (length_seq (nrows M) 0). apply NoDup_incl_length; [exact Hnd|].
    intros i Hi. rewrite Forall_forall in Hr. apply in_seq. specialize (Hr i Hi). lia.
  - intros pre b post E. apply (Hl pre b post E).
Qed.

Lemma solvers_feasibility_helper (M : ndarray) :
  coverage_matrix M ->
  (greedy_set_cover M = Finished None -> exists f, f < ncols M /\ zero_column M f) /\
  (exact_min_set_cover M = None -> exists f, f < ncols M /\ zero_column M f).
Proof.
  intros wf. split; [apply (greedy_none_iff_zero_column wf)|].
  intros H. apply (no_cover_iff_zero_column wf).
  unfold exact_min_set_cover in H. rewrite find_none_iff in H. unfold is_full_cover in H.
  intros c Hc E. apply array_equal_eq in E. rewrite (H c Hc) in E. discriminate.
Qed.

(** X11. On a coverage matrix the greedy solver answers [None] exactly
    when some fault column is entirely zero, and that is exactly when the
    exact solver answers [None]: the two solvers find the same matrices
    infeasible. *)
Theorem solvers_agree_on_feasibility (M : ndarray) :
  coverage_matrix M ->
  (greedy_set_cover M = Finished None <-> exists f, f < ncols M /\ zero_column M f) /\
  (greedy_set_cover M = Finished None <-> exact_min_set_cover M = None).
Proof.
  intros wf.
  assert (G := greedy_none_iff_zero_column wf).
  split; [exact G|]. rewrite G, <- (no_cover_iff_zero_column wf).
  unfold exact_min_set_cover. rewrite find_none_iff. unfold is_full_cover.
  split; intros H c Hc; specialize (H c Hc).
  - destruct (array_equal (union M c) (ones (ncols M))) eqn:E; [|reflexivity].
    apply array_equal_eq in E. contradiction.
  - intros E. apply array_equal_eq in E. congruence.
Qed.

(** The gain of a test while every fault is uncovered. *)
Lemma gain_le (M : ndarray) (uncovered : list nat) (i : nat) :
  gain M uncovered i <= length uncovered.
Proof. unfold gain. apply filter_length_le. Qed.

Lemma gain_full_iff (M : ndarray) (uncovered : list nat) (i : nat) :
  gain M uncovered i = length uncovered <->
  forall f, In f uncovered -> entry M i f = 1%Z.
Proof.
  unfold gain. induction uncovered as [|f unc IH]; simpl.
  - split; [intros _ f []|reflexivity].
  - destruct (Z.eqb (entry M i f) 1) eqn:E; simpl.
    + apply Z.eqb_eq in E. split.
      * intros H f' [<-|Hf]; [exact E|]. apply IH; [lia|exact Hf].
      * intros H. f_equal. apply IH. intros f' Hf. apply H. now right.
    + apply Z.eqb_neq in E. split.
      * intros H. assert (L := filter_length_le (fun f => Z.eqb (entry M i f) 1) unc). lia.
      * intros H. exfalso. apply E, H. now left.
Qed.

(** X12. When some test of a coverage matrix covers every fault, both
    solvers return exactly one test, the one of lowest index among the
    tests that cover every fault. *)
Theorem single_covering_test (M : ndarray) (i : nat) :
  coverage_matrix M ->
  i < nrows M ->
  (forall f, f < ncols M -> entry M i f = 1%Z) ->
  (forall j, j < i -> exists f, f < ncols M /\ entry M j f <> 1%Z) ->
  exact_min_set_cover M = Some [i] /\ greedy_set_cover M = Finished (Some [i]).
Proof.
  intros wf Hi Hall Hlow. split.
  - apply exact_some_iff.
    assert (Hc : In [i] (candidates (nrows M))).
    { apply candidates_In. split; [split|simpl; lia].
      - repeat constructor.
      - constructor; [lia|constructor]. }
    split; [exact Hc|]. split.
    + apply array_equal_eq, (union_ones_iff wf (candidates_in_range M _ Hc)).
      intros f Hf. exists i. split; [now left|now apply Hall].
    + intros d Hd Hcov.
      apply array_equal_eq, (union_ones_iff wf (candidates_in_range M _ Hd)) in Hcov.
      apply candidates_In in Hd. destruct Hd as [[Hs Hr] Hl].
      destruct d as [|j [|k d]]; [simpl in Hl; lia| |right; left; simpl; lia].
      destruct (Nat.lt_trichotomy i j) as [L|[E|L]].
      * right. right. split; [reflexivity|]. simpl. now left.
      * left. now subst.
      * exfalso. destruct (Hlow j L) as [f [Hf Hn]].
        destruct (Hcov f Hf) as [j' [[<-|[]] E]]. contradiction.
  - destruct (greedy_set_cover_spec_result M) as [res [H1 H2]].
    rewrite H1. do 2 f_equal.
    eapply greedy_run_deterministic; [exact H2|].
    assert (Hne : seq 0 (ncols M) <> []).
    { destruct wf as [Hm _]. destruct (ncols M); [lia|discriminate]. }
    assert (Hgi : gain M (seq 0 (ncols M)) i = ncols M).
    { rewrite <- (length_seq (ncols M) 0) at 2. apply gain_full_iff.
      intros f Hf. apply in_seq in Hf. apply Hall. lia. }
    apply greedy_choose with (best := i); try assumption.
    + rewrite Hgi. apply wf.
    + intros j _. rewrite Hgi. rewrite <- (length_seq (ncols M) 0) at 2. apply gain_le.
    + intros j Hj. rewrite Hgi.
      assert (L := gain_le M (seq 0 (ncols M)) j). rewrite length_seq in L.
      destruct (Nat.eq_dec (gain M (seq 0 (ncols M)) j) (ncols M)) as [E|N]; [|lia].
      exfalso. rewrite <- (length_seq (ncols M) 0) in E at 2.
      destruct (Hlow j Hj) as [f [Hf Hn]]. apply Hn.
      apply (proj1 (gain_full_iff M (seq 0 (ncols M)) j) E). apply in_seq. lia.
    + replace (remove_covered M (seq 0 (ncols M)) i) with (@nil nat); [constructor|].
      symmetry. apply filter_none. intros f Hf. apply in_seq in Hf.
      rewrite Hall by lia. reflexivity.
Qed.

End SolverFacts.

(* ===================================================================== *)
(** ** The report of the set-cover mode *)
(* ===================================================================== *)

Module ToolkitFacts.

Import Py PyText SetCover CoverageInput ListFacts SetCoverFacts CoverageInputFacts SolverFacts.

Local Open Scope string_scope.
Local Open Scope list_scope.
Local Open Scope nat_scope.

Lemma vector_sum_ones (m : nat) : vector_sum (ones m) = Z.of_nat m.
Proof.
  unfold vector_sum, ones.
  assert (G : forall a, fold_left Z.add (repeat 1%Z m) a = (a + Z.of_nat m)%Z).
  { induction m as [|m IH]; intros a; simpl repeat; simpl fold_left; [lia|].
    rewrite IH. lia. }
  now rewrite G.
Qed.

(** What the search chosen by the threshold returns. *)
Definition search (M : ndarray) (used : method) : option (list nat) :=
  match used with
  | EXACT => exact_min_set_cover M
  | GREEDY =>
      match greedy_set_cover M with
      | Finished r => r
      | OutOfFuel => None
      end
  end.

Lemma search_none (M : ndarray) (used : method) :
  coverage_matrix M -> search M used = None ->
  exists f, f < ncols M /\ zero_column M f.
Proof.
  intros wf H. destruct (solvers_feasibility_helper wf) as [G X].
  destruct used; simpl in H.
  - apply X, H.
  - destruct (greedy_set_cover_spec_result M) as [res [E _]].
    rewrite E in H. subst res. now apply G.
Qed.

Lemma search_some (M : ndarray) (used : method) (chosen : list nat) :
  coverage_matrix M -> search M used = Some chosen ->
  NoDup chosen /\ Forall (fun i => i < nrows M) chosen /\ covers M chosen /\
  1 <= length chosen <= nrows M /\
  (used = EXACT ->
   forall g, Forall (fun i => i < nrows M) g -> covers M g -> length chosen <= length g).
Proof.
  intros wf H.
  assert (Hbound : forall c, NoDup c -> Forall (fun i => i < nrows M) c -> covers M c ->
                             1 <= length c <= nrows M).
  { intros c Hnd Hr Hc. split.
    - destruct wf as [Hm _]. destruct (Hc 0 Hm) as [i [Hi _]].
      destruct c; [destruct Hi|simpl; lia].
    - rewrite <- (length_seq (nrows M) 0). apply NoDup_incl_length; [exact Hnd|].
      intros i Hi. rewrite Forall_forall in Hr. apply in_seq. specialize (Hr i Hi). lia. }
  destruct used; simpl in H.
  - destruct (exact_optimal_helper wf H) as [Hs [Hr [Hc Hopt]]].
    assert (Hnd := sorted_lt_NoDup Hs).
    repeat split; auto; now apply Hbound.
  - destruct (greedy_set_cover M) as [r|] eqn:E; [|discriminate]. subst r.
    destruct (greedy_some_covers M E) as [Hnd [Hr Hc]].
    repeat split; auto; try (now apply Hbound). discriminate.
Qed.

Section Report.

Variable max_str_digits : nat.

(** X13. Whenever [mode_min_tests_cover_faults] reports selected tests, it
    reports that all faults are covered, never that they are not: the tests
    named are distinct tests of the matrix read, at least one and at most
    [t] of them, and together they cover every fault; when the exact search
    was used (the number of tests is at most the threshold typed) no list
    of tests that covers every fault is shorter.  It reports that no subset
    covers only when some fault column of the matrix is entirely zero. *)
Theorem mode_min_tests_report (lines rest : list string) (rep : report) :
  mode_min_tests_cover_faults max_str_digits lines = (Ok rep, rest) ->
  exists names M mid threshold,
    read_fault_coverage max_str_digits lines = (Ok (names, M), mid) /\
    get_int max_str_digits (Some 1%Z) None mid = (Ok threshold, rest) /\
    match rep with
    | NoCover used =>
        (used = EXACT <-> (Z.of_nat (nrows M) <= threshold)%Z) /\
        exists f, f < ncols M /\ zero_column M f
    | Selected used chosen_names number_selected tests all_covered =>
        (used = EXACT <-> (Z.of_nat (nrows M) <= threshold)%Z) /\
        tests = nrows M /\
        all_covered = true /\
        1 <= number_selected <= tests /\
        exists chosen,
          chosen_names = map (fun i => nth i names "") chosen /\
          length chosen = number_selected /\
          NoDup chosen /\
          Forall (fun i => i < nrows M) chosen /\
          covers M chosen /\
          (used = EXACT ->
           forall g, Forall (fun i => i < nrows M) g -> covers M g ->
                     number_selected <= length g)
    end.
Proof.
  unfold mode_min_tests_cover_faults. intros H.
  apply bind_ok in H. destruct H as [[names M] [mid [Hread H]]].
  apply bind_ok in H. destruct H as [threshold [rest' [Hth H]]].
  cbn [fst snd] in H.
  assert (wf := read_fault_coverage_wf max_str_digits lines Hread).
  set (used := if Z.leb (Z.of_nat (nrows M)) threshold then EXACT else GREEDY) in H.
  assert (Hused : used = EXACT <-> (Z.of_nat (nrows M) <= threshold)%Z).
  { unfold used. destruct (Z.leb (Z.of_nat (nrows M)) threshold) eqn:L.
    - apply Z.leb_le in L. tauto.
    - apply Z.leb_gt in L. split; [discriminate|lia]. }
  change (match used with
          | EXACT => exact_min_set_cover M
          | GREEDY => match greedy_set_cover M with
                      | Finished r => r
                      | OutOfFuel => None
                      end
          end) with (search M used) in H.
  destruct (search M used) as [chosen|] eqn:S; unfold ret in H; injection H as <- <-.
  - exists names, M, mid, threshold. split; [exact Hread|]. split; [exact Hth|].
    destruct (search_some used wf S) as [Hnd [Hr [Hc [Hb Hopt]]]].
    rewrite length_map.
    split; [exact Hused|]. split; [reflexivity|]. split.
    + apply Z.eqb_eq. rewrite (proj2 (union_ones_iff wf Hr) Hc). apply vector_sum_ones.
    + split; [exact Hb|]. exists chosen. auto 10.
  - exists names, M, mid, threshold. split; [exact Hread|]. split; [exact Hth|].
    split; [exact Hused|]. now apply (search_none used wf).
Qed.

End Report.

End ToolkitFacts.

(* ===================================================================== *)
(** ** Runs of the set-cover mode on concrete input *)
(* ===================================================================== *)

Module ToolkitRuns.

Import Py PyText SetCover CoverageInput ListFacts SetCoverFacts CoverageInputFacts
       SolverFacts ToolkitFacts.

Local Open Scope string_scope.
Local Open Scope list_scope.
Local Open Scope Z_scope.

(** A session: two faults, two tests, the first one unnamed; a vector of
    the wrong width is typed and refused; the threshold is 5. *)
Definition session : list string :=
  ["x"; "0"; "2"; "2"; ""; "10"; "  first "; "1 1 1"; "0,1"; "5"; "left"].

(** A test that covers both faults, after one that does not. *)
Definition one_test_enough : ndarray := mkArray [[1; 0]; [1; 1]; [1; 1]] 2.

Example session_report :
  mode_min_tests_cover_faults 4300 session =
  (Ok (Selected EXACT ["T1"; "first"] 2 2 true), ["left"]).
Proof. reflexivity. Qed.

Lemma parse_binary_vector_bits_witness :
  length [1; 0; 1; 1] = 4%nat /\ forall b, In b [1; 0; 1; 1] -> b = 0 \/ b = 1.
Proof.
  apply (@parse_binary_vector_bits 4300 "1, 0 1,1" 4 [1; 0; 1; 1]). reflexivity.
Defined.

Lemma parse_binary_vector_reads_digits_witness :
  parse_binary_vector 4300 " 1,0 1 1" 4 =
  Ok (map digit_value (filter is_bit_char (list_ascii_of_string " 1,0 1 1"))).
Proof.
  apply (@parse_binary_vector_reads_digits 4300 " 1,0 1 1" 4); reflexivity.
Defined.

Lemma get_int_first_accepted_witness :
  within (Some 1) None 7 /\
  exists skipped l,
    ["x"; "0"; " 7 "; "rest"] = skipped ++ l :: ["rest"] /\
    accepted 4300 (Some 1) None l 7 /\
    forall l', In l' skipped -> forall y, ~ accepted 4300 (Some 1) None l' y.
Proof.
  destruct (get_int_first_accepted 4300 (Some 1) None ["x"; "0"; " 7 "; "rest"]) as [H _].
  apply (H 7 ["rest"]). reflexivity.
Defined.

Lemma read_fault_coverage_matrix_witness :
  coverage_matrix (mkArray [[1; 0]; [0; 1]] 2) /\
  length ["T1"; "first"] = nrows (mkArray [[1; 0]; [0; 1]] 2) /\
  Forall (fun n => n <> "") ["T1"; "first"].
Proof.
  apply (@read_fault_coverage_matrix 4300 session ["5"; "left"]). reflexivity.
Defined.

Lemma exact_min_set_cover_optimal_witness :
  StronglySorted lt [0; 2]%nat /\
  Forall (fun i => (i < nrows four_tests)%nat) [0; 2]%nat /\
  covers four_tests [0; 2]%nat /\
  (forall g, Forall (fun i => (i < nrows four_tests)%nat) g -> covers four_tests g ->
             (length [0; 2]%nat <= length g)%nat) /\
  (forall i, In i [0; 2]%nat -> ~ covers four_tests (remove Nat.eq_dec i [0; 2]%nat)).
Proof.
  apply (@exact_min_set_cover_optimal four_tests [0; 2]%nat).
  - solve_coverage_matrix.
  - reflexivity.
Defined.

Lemma greedy_set_cover_economy_witness :
  NoDup [1; 0; 2]%nat /\
  (length [1; 0; 2]%nat <= nrows four_tests)%nat /\
  (length [1; 0; 2]%nat <= ncols four_tests)%nat /\
  forall pre b post,
    [1; 0; 2]%nat = pre ++ b :: post ->
    exists f, entry four_tests b f = 1 /\ forall j, In j pre -> entry four_tests j f <> 1.
Proof.
  apply (@greedy_set_cover_economy four_tests [1; 0; 2]%nat). reflexivity.
Defined.

Lemma solvers_agree_on_feasibility_witness :
  (greedy_set_cover uncovered_fault = Finished None <->
   exists f, (f < ncols uncovered_fault)%nat /\ zero_column uncovered_fault f) /\
  (greedy_set_cover uncovered_fault = Finished None <->
   exact_min_set_cover uncovered_fault = None).
Proof.
  apply (@solvers_agree_on_feasibility uncovered_fault). solve_coverage_matrix.
Defined.

Lemma single_covering_test_witness :
  exact_min_set_cover one_test_enough = Some [1%nat] /\
  greedy_set_cover one_test_enough = Finished (Some [1%nat]).
Proof.
  apply (@single_covering_test one_test_enough 1).
  - solve_coverage_matrix.
  - unfold nrows. simpl. lia.
  - intros [|[|f]] Hf; [reflexivity|reflexivity|simpl in Hf; lia].
  - intros j Hj. assert (j = 0%nat) by lia. subst j.
    exists 1%nat. split; [simpl; lia|discriminate].
Defined.

Lemma mode_min_tests_report_witness :
  exists names M mid threshold,
    read_fault_coverage 4300 session = (Ok (names, M), mid) /\
    get_int 4300 (Some 1) None mid = (Ok threshold, ["left"]) /\
    (EXACT = EXACT <-> Z.of_nat (nrows M) <= threshold) /\
    2%nat = nrows M /\
    true = true /\
    (1 <= 2 <= 2)%nat /\
    exists chosen,
      ["T1"; "first"] = map (fun i => nth i names "") chosen /\
      length chosen = 2%nat /\
      NoDup chosen /\
      Forall (fun i => (i < nrows M)%nat) chosen /\
      covers M chosen /\
      (EXACT = EXACT ->
       forall g, Forall (fun i => (i < nrows M)%nat) g -> covers M g ->
                 (2 <= length g)%nat).
Proof.
  apply (@mode_min_tests_report 4300 session ["left"]
           (Selected EXACT ["T1"; "first"] 2 2 true)).
  reflexivity.
Defined.

End ToolkitRuns.

(* ===================================================================== *)
(** ** Normalization and the variables *)
(* ===================================================================== *)

Module NormalizeFacts.

Import Py MCDC PyFacts.

Local Open Scope string_scope.
Local Open Scope list_scope.
Local Open Scope nat_scope.

(** Whether a string starts with a word character. *)
Definition head_word (s : string) : bool :=
  match s with
  | EmptyString => false
  | String d _ => is_word d
  end.

Definition no_word_char (s : string) : Prop :=
  Forall (fun c => is_word c = false) (list_ascii_of_string s).

Lemma findall_step (prev : bool) (c : ascii) (rest : string) :
  findall_single_lower prev (String c rest) =
  if is_lower c && negb prev && negb (head_word rest)
  then c :: findall_single_lower (is_word c) rest
  else findall_single_lower (is_word c) rest.
Proof. reflexivity. Qed.

Lemma lower_is_word (c : ascii) : is_word c = false -> is_lower c = false.
Proof. unfold is_word. destruct (is_lower c); [discriminate|reflexivity]. Qed.

(** A run of characters that are not word characters yields no variable
    and leaves a word boundary behind. *)
Lemma findall_skip (x r : string) (prev : bool) :
  no_word_char x -> x <> "" ->
  findall_single_lower prev (x ++ r) = findall_single_lower false r.
Proof.
  unfold no_word_char. revert prev. induction x as [|c x IH]; intros prev H Hne; [congruence|].
  simpl in H. inversion H as [|? ? Hc Hx]; subst.
  change (String c x ++ r)%string with (String c (x ++ r)).
  rewrite findall_step, (lower_is_word c Hc), Hc. simpl.
  destruct x as [|d x]; [reflexivity|]. apply IH; [exact Hx|discriminate].
Qed.

Lemma prefix_split (old s : string) :
  String.prefix old s = true -> exists r, s = (old ++ r)%string.
Proof.
  revert s. induction old as [|c old IH]; intros s H.
  - exists s. reflexivity.
  - destruct s as [|d s]; [discriminate|]. simpl in H.
    destruct (ascii_dec c d) as [->|]; [|discriminate].
    destruct (IH s H) as [r ->]. now exists r.
Qed.

Lemma append_length (x r : string) :
  String.length (x ++ r) = String.length x + String.length r.
Proof. induction x as [|c x IH]; simpl; [reflexivity|now rewrite IH]. Qed.

Lemma replace_from_skip (old new x r : string) :
  replace_from old new (String.length x) (x ++ r) = replace_from old new 0 r.
Proof. induction x as [|c x IH]; [reflexivity|exact IH]. Qed.

Section Replace.

(** The replaced text has no word character; the text put in its place
    starts with none, and yields no variable and ends on a word boundary,
    as [" and "], [" or "] and [" not "] do. *)
Variables old new : string.
Hypothesis old_not_empty : old <> "".
Hypothesis old_no_word : no_word_char old.
Hypothesis new_head : head_word new = false.
Hypothesis new_not_empty : new <> "".
Hypothesis new_yields_nothing :
  forall prev r, findall_single_lower prev (new ++ r) = findall_single_lower false r.

Lemma replace_from_match (s : string) :
  String.prefix old s = true ->
  exists r, s = (old ++ r)%string /\
            replace_from old new 0 s = (new ++ replace_from old new 0 r)%string.
Proof.
  intros H. destruct (prefix_split old s H) as [r ->]. exists r. split; [reflexivity|].
  destruct old as [|c old'] eqn:E; [congruence|].
  change (String c old' ++ r)%string with (String c (old' ++ r)) in *.
  cbn [replace_from]. rewrite H.
  cbn [String.length]. rewrite Nat.sub_1_r. cbn [Nat.pred].
  now rewrite replace_from_skip.
Qed.

Lemma head_word_replace (s : string) :
  head_word (replace_from old new 0 s) = head_word s.
Proof.
  destruct s as [|d s]; [reflexivity|].
  destruct (String.prefix old (String d s)) eqn:P.
  - destruct (replace_from_match _ P) as [r [E ->]].
    destruct new as [|n new']; [congruence|]. simpl. simpl in new_head. rewrite new_head.
    destruct old as [|c old']; [congruence|].
    inversion E; subst. unfold no_word_char in old_no_word. simpl in old_no_word.
    inversion old_no_word; subst. simpl. congruence.
  - cbn [replace_from]. rewrite P. reflexivity.
Qed.

Lemma findall_replace_bounded (n : nat) (s : string) (prev : bool) :
  String.length s <= n ->
  findall_single_lower prev (replace_from old new 0 s) = findall_single_lower prev s.
Proof.
  revert s prev. induction n as [|n IH]; intros s prev Hn.
  - destruct s; [reflexivity|simpl in Hn; lia].
  - destruct s as [|c s]; [reflexivity|].
    destruct (String.prefix old (String c s)) eqn:P.
    + destruct (replace_from_match _ P) as [r [E ->]]. rewrite E.
      rewrite new_yields_nothing, (findall_skip r prev old_no_word old_not_empty).
      apply IH.
      assert (L : String.length (String c s) = String.length old + String.length r)
        by (rewrite E; apply append_length).
      destruct old; [congruence|]. simpl in *. lia.
    + cbn [replace_from]. rewrite P.
      rewrite !findall_step, head_word_replace.
      rewrite IH by (simpl in Hn; lia). reflexivity.
Qed.

Lemma findall_replace (s : string) (prev : bool) :
  findall_single_lower prev (str_replace old new s) = findall_single_lower prev s.
Proof. unfold str_replace. now apply (@findall_replace_bounded (String.length s)). Qed.

End Replace.

Lemma findall_in_text (s : string) (prev : bool) (c : ascii) :
  In c (findall_single_lower prev s) -> In c (list_ascii_of_string s).
Proof.
  revert prev. induction s as [|d s IH]; intros prev; [tauto|].
  rewrite findall_step. simpl.
  destruct (is_lower d && negb prev && negb (head_word s)); simpl; intros H.
  - destruct H as [<-|H]; [now left|right; eauto].
  - right. eauto.
Qed.

Lemma findall_normalized (text : string) :
  findall_single_lower false (_normalize_expression text) = findall_single_lower false text.
Proof.
  unfold _normalize_expression.
  rewrite !findall_replace; try reflexivity; try discriminate;
    try (repeat constructor).
Qed.

(** X1. The variables of a solver are those found in the decision as it
    was typed: the words [and], [or] and [not] that normalization puts in
    never become variables and never hide one.  Every variable is a
    lowercase letter that occurs in the text. *)
Theorem variables_of_typed_text (text : string) :
  variables (init text) = _extract_variables text /\
  forall c, In c (variables (init text)) ->
            is_lower c = true /\ In c (list_ascii_of_string text).
Proof.
  assert (E : variables (init text) = _extract_variables text).
  { simpl. unfold _extract_variables. now rewrite findall_normalized. }
  split; [exact E|]. intros c Hc. rewrite E in Hc.
  unfold _extract_variables, set_of_list in Hc. rewrite sorted_In, nodup_In in Hc.
  split; [eapply findall_single_lower_lower; eauto|eapply findall_in_text; eauto].
Qed.

End NormalizeFacts.

(* ===================================================================== *)
(** ** Where the rows of an independence pair lie *)
(* ===================================================================== *)

Module PairRowFacts.

Import Py MCDC ListFacts PyFacts TruthTableFacts PairFacts SetCoverFacts.

Local Open Scope string_scope.
Local Open Scope list_scope.
Local Open Scope nat_scope.

Lemma dict_get_combine_nth (ks : list ascii) (vs : list bool) (p : nat) (k : ascii) :
  NoDup ks -> length ks = length vs -> nth_error ks p = Some k ->
  dict_get ascii_dec (combine ks vs) k = nth_error vs p.
Proof.
  revert vs p. induction ks as [|k0 ks IH]; intros [|v0 vs] p Hnd Hlen Hp;
    simpl in Hlen; try discriminate.
  - destruct p; discriminate.
  - inversion Hnd as [|? ? Hk0 Hnd']; subst. destruct p as [|p]; simpl in *.
    + injection Hp as ->. destruct (ascii_dec k k); [reflexivity|congruence].
    + destruct (ascii_dec k k0) as [->|ne].
      * exfalso. apply Hk0. eapply nth_error_In; eauto.
      * apply IH; auto.
Qed.

(** Two combinations that differ in position [p] only, [False] in the one
    and [True] in the other, are [2^(n-1-p)] rows apart. *)
Lemma bits_value_flip (c1 c2 : list bool) (p : nat) :
  length c1 = length c2 ->
  (forall q, q <> p -> nth_error c1 q = nth_error c2 q) ->
  nth_error c1 p = Some false -> nth_error c2 p = Some true ->
  bits_value c2 = bits_value c1 + 2 ^ (length c1 - 1 - p).
Proof.
  revert c2 p. induction c1 as [|x c1 IH]; intros [|y c2] p Hlen Hq H1 H2;
    simpl in Hlen; try discriminate.
  - destruct p; discriminate.
  - destruct p as [|p]; simpl in H1, H2.
    + injection H1 as ->. injection H2 as ->.
      assert (E : c1 = c2).
      { apply nth_error_ext. intros q. apply (Hq (S q)). discriminate. }
      subst c2. simpl. rewrite !Nat.sub_0_r. lia.
    + assert (E : x = y) by (specialize (Hq 0); simpl in Hq; injection Hq; auto).
      subst y. simpl.
      rewrite (IH c2 p); auto.
      * replace (length c2) with (length c1) by lia.
        replace (length c1 - 0 - S p) with (length c1 - 1 - p) by lia. lia.
      * intros q Hne. apply (Hq (S q)). congruence.
Qed.

Lemma StronglySorted_map (A B : Type) (R : A -> A -> Prop) (R' : B -> B -> Prop)
      (f : A -> B) (l : list A) :
  (forall x y, In x l -> In y l -> R x y -> R' (f x) (f y)) ->
  StronglySorted R l -> StronglySorted R' (map f l).
Proof.
  intros H Hs. induction Hs as [|x l Hl IH Hx]; simpl; constructor.
  - apply IH. intros a b Ha Hb. apply H; now right.
  - apply Forall_forall. intros y Hy. apply in_map_iff in Hy.
    destruct Hy as [z [<- Hz]]. rewrite Forall_forall in Hx.
    apply H; [now left|now right|auto].
Qed.

Section PairRows.

Variable py_eval : string -> dict ascii bool -> outcome.

(** The two rows of a pair of the variable at position [p]. *)
Lemma pair_rows (text : string) (p : nat) (v : ascii) (a b : nat) :
  let s := init text in
  nth_error (variables s) p = Some v ->
  In (a, b) (pairs_for (variables s) (new_rows py_eval s) v) ->
  1 <= a /\ b <= 2 ^ length (variables s) /\
  b = a + 2 ^ (length (variables s) - 1 - p) /\
  exists r1 r2,
    nth_error (new_rows py_eval s) (a - 1) = Some r1 /\
    nth_error (new_rows py_eval s) (b - 1) = Some r2 /\
    row_get r1 v = Some false /\ row_get r2 v = Some true.
Proof.
  intros s Hp Hin.
  assert (Hnd := ascending_NoDup (init_variables_ascending text)). fold s in Hnd.
  apply pairs_for_In in Hin.
  destruct Hin as [i [j [r1 [r2 [Hij [Hi [Hj [-> [-> Q]]]]]]]]].
  apply qualifies_iff in Q. destruct Q as [Qo [Qv _]].
  destruct (new_rows_nth_inv py_eval s i Hnd Hi) as [Li [Ti [c1 [L1 [B1 [V1 _]]]]]].
  destruct (new_rows_nth_inv py_eval s j Hnd Hj) as [Lj [Tj [c2 [L2 [B2 [V2 _]]]]]].
  assert (G : forall q w, nth_error (variables s) q = Some w ->
                          row_get r1 w = nth_error c1 q /\ row_get r2 w = nth_error c2 q).
  { intros q w Hq. unfold row_get. rewrite V1, V2.
    split; apply dict_get_combine_nth; auto. }
  assert (Hpn : p < length (variables s)) by (apply nth_error_Some; congruence).
  destruct (G p v Hp) as [G1 G2].
  assert (Hq : forall q, q <> p -> nth_error c1 q = nth_error c2 q).
  { intros q Hne. destruct (nth_error (variables s) q) as [w|] eqn:E.
    - destruct (G q w E) as [<- <-]. apply Qo; [eapply nth_error_In; eauto|].
      intros ->. apply Hne. apply (proj1 (NoDup_nth_error (variables s)) Hnd); [|congruence].
      apply nth_error_Some. congruence.
    - apply nth_error_None in E.
      rewrite (proj2 (nth_error_None c1 q)), (proj2 (nth_error_None c2 q)); [reflexivity|lia|lia]. }
  rewrite G1, G2 in Qv.
  destruct (nth_error c1 p) as [x|] eqn:E1; [|apply nth_error_None in E1; lia].
  destruct (nth_error c2 p) as [y|] eqn:E2; [|apply nth_error_None in E2; lia].
  rewrite Ti, Tj.
  replace (i + 1 - 1) with i by lia. replace (j + 1 - 1) with j by lia.
  destruct x, y; try congruence.
  - exfalso.
    assert (F := @bits_value_flip c2 c1 p (eq_trans L2 (eq_sym L1))
                   (fun q Hne => eq_sym (Hq q Hne)) E2 E1).
    lia.
  - assert (F := @bits_value_flip c1 c2 p (eq_trans L1 (eq_sym L2)) Hq E1 E2).
    rewrite L1 in F.
    split; [lia|]. split; [lia|]. split; [lia|].
    exists r1, r2. rewrite G1, G2. auto.
Qed.

(** X2. On a new solver with [n] variables, every independence pair
    [(a, b)] of the variable at position [p] (from 0) of the sorted
    variable list satisfies [b = a + 2^(n-1-p)]: row [a] gives the variable
    [False], row [b] gives it [True], and nothing else differs.  So a
    variable has at most [2^(n-1)] pairs. *)
Theorem independence_pair_rows (text : string) (p : nat) (v : ascii) (l : list (nat * nat)) :
  let s := init text in
  let n := length (variables s) in
  let table := snd (generate_truth_table py_eval s) in
  nth_error (variables s) p = Some v ->
  dict_get ascii_dec (snd (find_mcdc_pairs py_eval s)) v = Some l ->
  (forall a b, In (a, b) l ->
     b = a + 2 ^ (n - 1 - p) /\
     exists r1 r2,
       nth_error table (a - 1) = Some r1 /\ nth_error table (b - 1) = Some r2 /\
       row_get r1 v = Some false /\ row_get r2 v = Some true) /\
  length l <= 2 ^ (n - 1).
Proof.
  intros s n table Hp Hl.
  assert (Hv : In v (variables s)) by (eapply nth_error_In; eauto).
  unfold s in Hl. rewrite find_fresh in Hl. simpl snd in Hl.
  assert (E := dict_get_items
                 (fun v => pairs_for (variables (init text)) (new_rows py_eval (init text)) v)
                 (variables (init text)) v Hv).
  unfold pairs_of in Hl. rewrite E in Hl. clear E.
  injection Hl as <-. fold s.
  set (l := pairs_for (variables s) (new_rows py_eval s) v).
  assert (R : forall a b, In (a, b) l ->
                1 <= a /\ b <= 2 ^ n /\ b = a + 2 ^ (n - 1 - p) /\
                exists r1 r2,
                  nth_error (new_rows py_eval s) (a - 1) = Some r1 /\
                  nth_error (new_rows py_eval s) (b - 1) = Some r2 /\
                  row_get r1 v = Some false /\ row_get r2 v = Some true).
  { intros a b Hin. now apply (pair_rows text p). }
  split.
  - intros a b Hin. destruct (R a b Hin) as [_ [_ [E X]]]. split; [exact E|exact X].
  - assert (Hs : StronglySorted pair_lt l).
    { apply pairs_for_sorted. intros i r H. now apply (new_rows_numbered py_eval text) in H. }
    assert (Hf : NoDup (map fst l)).
    { apply sorted_lt_NoDup. eapply StronglySorted_map; [|exact Hs].
      intros [a b] [a' b'] H1 H2 [L|[E L]]; simpl in *; [exact L|].
      destruct (R a b H1) as [_ [_ [-> _]]]. destruct (R a' b' H2) as [_ [_ [-> _]]]. lia. }
    assert (Hg : NoDup (map snd l)).
    { apply sorted_lt_NoDup. eapply StronglySorted_map; [|exact Hs].
      intros [a b] [a' b'] H1 H2 [L|[E L]]; simpl in *; [|exact L].
      destruct (R a b H1) as [_ [_ [-> _]]]. destruct (R a' b' H2) as [_ [_ [-> _]]]. lia. }
    assert (Hd : NoDup (map fst l ++ map snd l)).
    { apply NoDup_app; auto. intros x Hx Hy.
      apply in_map_iff in Hx, Hy.
      destruct Hx as [[a b] [<- H1]]. destruct Hy as [[a' b'] [E H2]]. simpl in E. subst b'.
      destruct (R a b H1) as [_ [_ [_ [r1 [r2 [N1 [_ [F1 _]]]]]]]].
      destruct (R a' a H2) as [_ [_ [_ [r1' [r2' [_ [N2 [_ F2]]]]]]]].
      rewrite N1 in N2. injection N2 as <-. rewrite F1 in F2. discriminate. }
    assert (Hi : incl (map fst l ++ map snd l) (seq 1 (2 ^ n))).
    { intros x Hx. apply in_seq. apply in_app_or in Hx.
      destruct Hx as [Hx|Hx]; apply in_map_iff in Hx;
        destruct Hx as [[a b] [<- H1]]; destruct (R a b H1) as [A [B [E _]]]; simpl; lia. }
    apply NoDup_incl_length in Hi; [|exact Hd].
    rewrite length_app, !length_map, length_seq in Hi.
    assert (Hpn : p < n) by (apply nth_error_Some; rewrite Hp; discriminate).
    assert (Hn : 1 <= n) by lia.
    assert (E : 2 ^ n = 2 * 2 ^ (n - 1)).
    { replace n with (S (n - 1)) at 1 by lia. apply Nat.pow_succ_r'. }
    rewrite E in Hi. change (length l <= 2 ^ (n - 1)).
    remember (2 ^ (n - 1)) as k. remember (length l) as len. lia.
Qed.

End PairRows.

End PairRowFacts.

(* ===================================================================== *)
(** ** What every sequence of calls keeps true *)
(* ===================================================================== *)

Module SolverInvariant.

Import Py MCDC ListFacts PyFacts TruthTableFacts PairFacts.

Local Open Scope string_scope.
Local Open Scope list_scope.
Local Open Scope nat_scope.

Lemma concat_repeat_snoc (A : Type) (R : list A) (k : nat) :
  concat (repeat R k) ++ R = concat (repeat R (S k)).
Proof.
  induction k as [|k IH]; simpl in *; [now rewrite app_nil_r|].
  now rewrite <- app_assoc, IH.
Qed.

Lemma concat_repeat_In (A : Type) (R : list A) (k : nat) (x : A) :
  In x (concat (repeat R k)) -> In x R.
Proof.
  induction k as [|k IH]; simpl; [tauto|].
  intros H. apply in_app_or in H. tauto.
Qed.

Section Invariant.

Variable py_eval : string -> dict ascii bool -> outcome.

(** The solver object after a sequence of calls. *)
Definition final_state (s : MCDCSolver) (calls : list call) : MCDCSolver :=
  fold_left (fun s c => fst (do_call py_eval s c)) calls s.

Variable text : string.

Let s0 : MCDCSolver := init text.
Let n : nat := length (variables s0).
Let R : list TestCase := new_rows py_eval s0.

(** The table is the rows of the decision, some number of times over; the
    pairs map speaks of variables and of row numbers of the decision; and
    there is no pairs map without a table. *)
Definition invariant (s : MCDCSolver) : Prop :=
  variables s = variables s0 /\
  expression s = expression s0 /\
  (exists k, truth_table s = concat (repeat R k)) /\
  (forall v l, In (v, l) (mcdc_pairs s) ->
     In v (variables s0) /\
     forall a b, In (a, b) l -> 1 <= a <= 2 ^ n /\ 1 <= b <= 2 ^ n) /\
  (mcdc_pairs s = [] \/ truth_table s <> []).

Lemma new_rows_same (s : MCDCSolver) :
  variables s = variables s0 -> expression s = expression s0 -> new_rows py_eval s = R.
Proof.
  intros Hv He. unfold R, new_rows. rewrite Hv. apply map_ext.
  intros [k c]. unfold make_row. now rewrite Hv, He.
Qed.

Lemma R_not_empty : R <> [].
Proof.
  intros E. assert (H := new_rows_not_empty py_eval s0). fold R in H.
  rewrite E in H. discriminate.
Qed.

Lemma R_row (r : TestCase) :
  In r R -> 1 <= test_num r <= 2 ^ n /\ nth_error R (test_num r - 1) = Some r.
Proof.
  intros H. apply In_nth_error in H. destruct H as [i Hi].
  destruct (new_rows_numbered py_eval text i Hi) as [-> Hlt].
  fold s0 in Hlt. fold n in Hlt.
  replace (i + 1 - 1) with i by lia. split; [lia|exact Hi].
Qed.

Lemma invariant_init : invariant s0.
Proof.
  split; [reflexivity|]. split; [reflexivity|]. split; [now exists 0|].
  split; [intros v l []|now left].
Qed.

Lemma invariant_generate (s : MCDCSolver) :
  invariant s ->
  invariant (fst (generate_truth_table py_eval s)) /\
  truth_table (fst (generate_truth_table py_eval s)) <> [].
Proof.
  intros [Hv [He [[k Ht] [Hp _]]]].
  assert (E : truth_table (fst (generate_truth_table py_eval s)) = concat (repeat R (S k))).
  { change (truth_table (fst (generate_truth_table py_eval s)))
      with (truth_table s ++ new_rows py_eval s).
    rewrite (new_rows_same s Hv He), Ht. apply concat_repeat_snoc. }
  assert (Hne : truth_table (fst (generate_truth_table py_eval s)) <> []).
  { rewrite E. simpl. intros X. apply app_eq_nil in X. apply R_not_empty, X. }
  split; [|exact Hne].
  split; [exact Hv|]. split; [exact He|]. split; [now exists (S k)|].
  split; [exact Hp|now right].
Qed.

Lemma dict_set_In (d : dict ascii (list (nat * nat))) (k v : ascii) (l l' : list (nat * nat)) :
  In (v, l) (dict_set ascii_dec d k l') -> In (v, l) d \/ (v = k /\ l = l').
Proof.
  induction d as [|[k0 l0] d IH]; simpl.
  - intros [H|[]]. injection H as <- <-. now right.
  - destruct (ascii_dec k k0) as [->|ne]; simpl.
    + intros [H|H]; [injection H as <- <-; now right|left; now right].
    + intros [H|H]; [left; now left|]. destruct (IH H); [left; now right|now right].
Qed.

Lemma fold_assign_In (f : ascii -> list (nat * nat)) (vars : list ascii)
      (d : dict ascii (list (nat * nat))) (v : ascii) (l : list (nat * nat)) :
  In (v, l) (fold_left (fun d var => dict_set ascii_dec d var (f var)) vars d) ->
  In (v, l) d \/ (In v vars /\ l = f v).
Proof.
  revert d. induction vars as [|w vars IH]; intros d; simpl; [tauto|].
  intros H. destruct (IH _ H) as [H1|[H1 H2]].
  - apply dict_set_In in H1. destruct H1 as [H1|[-> ->]]; [now left|right; auto].
  - right. auto.
Qed.

Lemma invariant_find (s : MCDCSolver) :
  invariant s ->
  invariant (fst (find_mcdc_pairs py_eval s)) /\
  truth_table (fst (find_mcdc_pairs py_eval s)) <> [].
Proof.
  intros I.
  set (s1 := if is_empty (truth_table s) then fst (generate_truth_table py_eval s) else s).
  assert (I1 : invariant s1 /\ truth_table s1 <> []).
  { unfold s1. destruct (truth_table s) eqn:E; simpl is_empty; cbv iota.
    - now apply invariant_generate.
    - split; [exact I|]. rewrite E. discriminate. }
  destruct I1 as [[Hv [He [[k Ht] [Hp _]]]] Hne].
  change (fst (find_mcdc_pairs py_eval s))
    with {| original_expression := original_expression s1;
            expression := expression s1;
            variables := variables s1;
            truth_table := truth_table s1;
            mcdc_pairs :=
              fold_left
                (fun d var => dict_set ascii_dec d var
                                (pairs_for (variables s1) (truth_table s1) var))
                (variables s1) (mcdc_pairs s1) |}.
  split; [|exact Hne].
  split; [exact Hv|]. split; [exact He|]. split; [now exists k|].
  split; [|now right].
  cbn [mcdc_pairs]. intros v l H.
  apply (fold_assign_In (fun var => pairs_for (variables s1) (truth_table s1) var)) in H.
  destruct H as [H|[H1 ->]]; [now apply Hp|].
  split; [now rewrite <- Hv|].
  intros a b Hab. apply pairs_for_In in Hab.
  destruct Hab as [i [j [r1 [r2 [_ [Hi [Hj [-> [-> _]]]]]]]]].
  apply nth_error_In in Hi, Hj. rewrite Ht in Hi, Hj.
  apply concat_repeat_In, R_row in Hi. apply concat_repeat_In, R_row in Hj. tauto.
Qed.

Lemma invariant_minimal (s : MCDCSolver) :
  invariant s -> invariant (fst (get_minimal_test_suite py_eval s)).
Proof.
  intros I. unfold get_minimal_test_suite. cbn [fst].
  destruct (is_empty (mcdc_pairs s)); [now apply invariant_find|exact I].
Qed.

Lemma invariant_final (calls : list call) (s : MCDCSolver) :
  invariant s -> invariant (final_state s calls).
Proof.
  revert s. induction calls as [|c calls IH]; intros s I; [exact I|].
  apply IH. destruct c; unfold do_call.
  - destruct (generate_truth_table py_eval s) eqn:E.
    change m with (fst (m, l)). rewrite <- E. now apply invariant_generate.
  - destruct (find_mcdc_pairs py_eval s) eqn:E.
    change m with (fst (m, d)). rewrite <- E. now apply invariant_find.
  - destruct (get_minimal_test_suite py_eval s) eqn:E.
    change m with (fst (m, s1)). rewrite <- E. now apply invariant_minimal.
Qed.

Lemma R_lookup (x : nat) :
  1 <= x <= 2 ^ n -> exists r, nth_error R (x - 1) = Some r /\ test_num r = x.
Proof.
  intros Hx.
  assert (Hnd := ascending_NoDup (init_variables_ascending text)).
  assert (Hk : x - 1 < 2 ^ length (variables s0)) by (fold n; lia).
  destruct (new_rows_nth py_eval s0 Hnd Hk) as [c [_ [_ [_ [Hn _]]]]].
  eexists. split; [exact Hn|]. simpl. lia.
Qed.

(** X3. Whatever operations are called on a new solver, in whatever order
    and however often, repeated generation included: the variables stay
    those of the decision; every row of the table binds every variable and
    carries a number between 1 and [2^n]; every entry of the pairs map is
    for a variable of the decision and holds such numbers only; and for
    every test number [x] that [get_minimal_test_suite] then returns, the
    table has a row at index [x - 1] and that row has the number [x]. *)
Theorem calls_keep_solver_consistent (calls : list call) :
  let s := final_state (init text) calls in
  variables s = variables (init text) /\
  (forall r v, In r (truth_table s) -> In v (variables s) -> exists b, row_get r v = Some b) /\
  (forall r, In r (truth_table s) -> 1 <= test_num r <= 2 ^ length (variables s)) /\
  (forall v l a b, In (v, l) (mcdc_pairs s) -> In (a, b) l ->
     In v (variables s) /\
     1 <= a <= 2 ^ length (variables s) /\ 1 <= b <= 2 ^ length (variables s)) /\
  (forall x, In x (snd (get_minimal_test_suite py_eval s)) ->
     exists r,
       nth_error (truth_table (fst (get_minimal_test_suite py_eval s))) (x - 1) = Some r /\
       test_num r = x).
Proof.
  intros s.
  assert (I : invariant s) by (apply invariant_final, invariant_init).
  assert (Hnd := ascending_NoDup (init_variables_ascending text)).
  destruct I as [Hv [He [[k Ht] [Hp Hne]]]].
  split; [exact Hv|]. rewrite Hv. fold s0. fold n.
  split; [|split; [|split]].
  - intros r v Hr Hin. rewrite Ht in Hr. apply concat_repeat_In in Hr.
    now apply (row_get_total py_eval s0).
  - intros r Hr. rewrite Ht in Hr. apply concat_repeat_In, R_row in Hr. tauto.
  - intros v l a b Hl Hab. destruct (Hp v l Hl) as [H1 H2].
    split; [exact H1|now apply H2].
  - change (snd (get_minimal_test_suite py_eval s))
      with (suite_of_pairs (mcdc_pairs (fst (get_minimal_test_suite py_eval s)))).
    remember (fst (get_minimal_test_suite py_eval s)) as s' eqn:Es'.
    assert (I' : invariant s').
    { rewrite Es'. apply invariant_minimal, invariant_final, invariant_init. }
    clear Es'.
    destruct I' as [_ [_ [[k' Ht'] [Hp' Hne']]]].
    intros x Hx. unfold suite_of_pairs in Hx.
    change (fold_left _ (mcdc_pairs s') (empty_set nat))
      with (fold_left add_first (mcdc_pairs s') []) in Hx.
    apply suite_fold_In in Hx. destruct Hx as [[]|[v [[a b] [rest [Hin Hx]]]]].
    assert (Hr : 1 <= x <= 2 ^ n).
    { destruct (Hp' _ _ Hin) as [_ H]. specialize (H a b (or_introl eq_refl)).
      simpl in Hx. destruct Hx as [->| ->]; tauto. }
    destruct (R_lookup Hr) as [r [Hn Hnum]].
    exists r. split; [|exact Hnum].
    destruct Hne' as [E|Hne']; [rewrite E in Hin; destruct Hin|].
    rewrite Ht' in *. destruct k' as [|k']; [simpl in Hne'; congruence|].
    simpl. rewrite nth_error_app1; [exact Hn|]. apply nth_error_Some. congruence.
Qed.

End Invariant.

End SolverInvariant.

(* ===================================================================== *)
(** ** Runs of the solver on concrete decisions *)
(* ===================================================================== *)

Module SolverRuns.

Import Py MCDC PyFacts TruthTableFacts PairFacts NormalizeFacts PairRowFacts
       SolverInvariant.

Local Open Scope string_scope.
Local Open Scope list_scope.
Local Open Scope nat_scope.

Lemma variables_of_typed_text_witness :
  is_lower "b" = true /\ In "b"%char (list_ascii_of_string "a && b").
Proof.
  destruct (variables_of_typed_text "a && b") as [_ H].
  apply (H "b"%char). vm_compute. right. left. reflexivity.
Defined.

Lemma independence_pair_rows_witness :
  (forall a b, In (a, b) [(1, 3)] ->
     b = a + 2 ^ (length (variables (init "a || b")) - 1 - 0) /\
     exists r1 r2,
       nth_error (snd (generate_truth_table py_eval_model (init "a || b"))) (a - 1) = Some r1 /\
       nth_error (snd (generate_truth_table py_eval_model (init "a || b"))) (b - 1) = Some r2 /\
       row_get r1 "a" = Some false /\ row_get r2 "a" = Some true) /\
  length [(1, 3)] <= 2 ^ (length (variables (init "a || b")) - 1).
Proof.
  apply (@independence_pair_rows py_eval_model "a || b" 0 "a"%char [(1, 3)]); reflexivity.
Defined.

Lemma calls_keep_solver_consistent_witness :
  exists r,
    nth_error
      (truth_table
         (fst (get_minimal_test_suite py_eval_model
                 (final_state py_eval_model (init "a")
                    [CallMinimalSuite; CallGenerate; CallFindPairs]))))
      (2 - 1) = Some r /\
    test_num r = 2.
Proof.
  destruct (calls_keep_solver_consistent py_eval_model "a"
              [CallMinimalSuite; CallGenerate; CallFindPairs]) as [_ [_ [_ [_ H]]]].
  apply (H 2). vm_compute. right. left. reflexivity.
Defined.

End SolverRuns.
